(** * Chess PGN recorder: validator, exporter and game session

    A shallow embedding of [src/move_validator.py], [pgn_exporter.py] and
    [src/chess_game.py].  Python [str] values are modelled as [string],
    one [ascii] per character (code points 0..255). *)

From Stdlib Require Import ZArith Ascii String List Lia Bool.
From stdpp Require Import base strings list gmap pretty.

Local Open Scope string_scope.
Local Open Scope char_scope.

(** ** Python string primitives used by the source *)

Module Py.

(** [c in chars], for a one-character [c]. *)
Fixpoint char_in (c : ascii) (chars : string) : bool :=
  match chars with
  | EmptyString => false
  | String d rest => Ascii.eqb c d || char_in c rest
  end.

(** [str.isspace] on code points below 256. *)
Definition isspace (c : ascii) : bool :=
  let n := N_of_ascii c in
  ((9 <=? n) && (n <=? 13) || (28 <=? n) && (n <=? 32)
   || (n =? 133) || (n =? 160))%N.

Fixpoint lstrip (s : string) : string :=
  match s with
  | EmptyString => EmptyString
  | String c rest => if isspace c then lstrip rest else s
  end.

Fixpoint rstrip (s : string) : string :=
  match s with
  | EmptyString => EmptyString
  | String c rest =>
      match rstrip rest with
      | EmptyString => if isspace c then EmptyString else String c EmptyString
      | kept => String c kept
      end
  end.

(** [s.strip()] *)
Definition strip (s : string) : string := rstrip (lstrip s).

Definition in_range (lo hi : N) (c : ascii) : bool :=
  let n := N_of_ascii c in ((lo <=? n) && (n <=? hi))%N.

(** [c.upper()] for a lower-case ASCII letter; other characters the
    source never passes are left alone. *)
Definition upper (c : ascii) : ascii :=
  if in_range 97 122 c then ascii_of_N (N_of_ascii c - 32) else c.

(** [c.lower()] on code points below 256. *)
Definition lower_char (c : ascii) : ascii :=
  let n := N_of_ascii c in
  if in_range 65 90 c || (in_range 192 222 c && negb (n =? 215)%N)
  then ascii_of_N (n + 32) else c.

Fixpoint lower (s : string) : string :=
  match s with
  | EmptyString => EmptyString
  | String c rest => String (lower_char c) (lower rest)
  end.

(** [s.startswith(p)] *)
Fixpoint startswith (s p : string) : bool :=
  match p, s with
  | EmptyString, _ => true
  | String _ _, EmptyString => false
  | String a p', String b s' => Ascii.eqb a b && startswith s' p'
  end.

(** [sep.join(parts)] *)
Fixpoint join (sep : string) (parts : list string) : string :=
  match parts with
  | [] => EmptyString
  | [p] => p
  | p :: rest => p +:+ sep +:+ join sep rest
  end.

(** Truthiness of an [Optional[str]]: [None] and the empty string are
    both false. *)
Definition truthy (o : option string) : bool :=
  match o with
  | Some (String _ _) => true
  | _ => false
  end.

Definition nl : string := String "010" EmptyString.

(** [s.endswith(suffix)] *)
Fixpoint endswith (s suffix : string) : bool :=
  String.eqb s suffix ||
  match s with
  | EmptyString => false
  | String _ rest => endswith rest suffix
  end.

(** [sub in s], for strings: [sub] occurs in [s] as a contiguous run. *)
Fixpoint str_in (sub s : string) : bool :=
  startswith s sub ||
  match s with
  | EmptyString => false
  | String _ rest => str_in sub rest
  end.

(** [s.replace(old, new)], for one-character [old] and [new]. *)
Fixpoint replace_char (old new : ascii) (s : string) : string :=
  match s with
  | EmptyString => EmptyString
  | String c rest =>
      String (if Ascii.eqb c old then new else c) (replace_char old new rest)
  end.

(** [s[:-n]]: all but the last [n] characters (nothing when [s] is shorter). *)
Definition drop_last (n : nat) (s : string) : string :=
  String.substring 0 (String.length s - n) s.

(** [c * n], a character repeated. *)
Fixpoint repeat_char (c : ascii) (n : nat) : string :=
  match n with
  | O => EmptyString
  | S k => String c (repeat_char c k)
  end.

(** The double-quote character. *)
Definition dquote : string := String "034" EmptyString.

(** Only white space: every character is one that [strip] removes. *)
Fixpoint all_space (s : string) : bool :=
  match s with
  | EmptyString => true
  | String c rest => isspace c && all_space rest
  end.

End Py.

(** ** The fragment of [re] the validator relies on *)

Module Re.

(** Patterns built from character classes, sequencing, [?] and a
    starred class: all that the five validator patterns contain. *)
Inductive regex : Type :=
| Cls (chars : string)
| Seq (r1 r2 : regex)
| Opt (r : regex)
| StarCls (chars : string).

Fixpoint star_cls (chars : string) (k : string -> bool) (s : string) : bool :=
  k s ||
  match s with
  | EmptyString => false
  | String c rest => Py.char_in c chars && star_cls chars k rest
  end.

(** Backtracking match of [r] at the head of [s], continuing with [k]. *)
Fixpoint matchk (r : regex) (k : string -> bool) (s : string) : bool :=
  match r with
  | Cls chars =>
      match s with
      | EmptyString => false
      | String c rest => Py.char_in c chars && k rest
      end
  | Seq r1 r2 => matchk r1 (matchk r2 k) s
  | Opt r1 => matchk r1 k s || k s
  | StarCls chars => star_cls chars k s
  end.

(** [$]: the end of the string, or just before a final newline. *)
Definition at_dollar (s : string) : bool :=
  match s with
  | EmptyString => true
  | String c EmptyString => Ascii.eqb c "010"
  | _ => false
  end.

(** [re.compile("^" r "$").match(s) is not None] *)
Definition matches (r : regex) (s : string) : bool := matchk r at_dollar s.

(** [re.findall(r"[lo-hi]", s)]: the characters of [s] in the range. *)
Fixpoint findall_range (lo hi : N) (s : string) : list ascii :=
  match s with
  | EmptyString => []
  | String c rest =>
      if Py.in_range lo hi c then c :: findall_range lo hi rest
      else findall_range lo hi rest
  end.

(** [re.search(r"=([A-Z])", s)]: group 1 of the leftmost match. *)
Fixpoint search_promo (s : string) : option ascii :=
  match s with
  | EmptyString => None
  | String c rest =>
      if Ascii.eqb c "="
      then match rest with
           | String p _ =>
               if Py.in_range 65 90 p then Some p else search_promo rest
           | EmptyString => None
           end
      else search_promo rest
  end.

(** Every character of [s] is in [alpha]. *)
Fixpoint all_in (alpha s : string) : bool :=
  match s with
  | EmptyString => true
  | String c rest => Py.char_in c alpha && all_in alpha rest
  end.

(** The characters a pattern can consume. *)
Fixpoint alphabet (r : regex) : string :=
  match r with
  | Cls chars | StarCls chars => chars
  | Seq r1 r2 => alphabet r1 +:+ alphabet r2
  | Opt r1 => alphabet r1
  end.

End Re.

(** ** [src/move_validator.py] *)

Module MoveValidator.
Import Re.

Definition files : string := "abcdefgh".
Definition ranks : string := "12345678".
Definition suffix : regex := Seq (Opt (Cls "+#")) (StarCls "!?").

(** [^O-O(-O)?[+#]?[!?]*$] *)
Definition CASTLING : regex :=
  Seq (Cls "O") (Seq (Cls "-") (Seq (Cls "O")
    (Seq (Opt (Seq (Cls "-") (Cls "O"))) suffix))).

(** [^[a-h]?x?[a-h][18]=[QRBN][+#]?[!?]*$] *)
Definition PAWN_PROMOTION : regex :=
  Seq (Opt (Cls files)) (Seq (Opt (Cls "x")) (Seq (Cls files)
    (Seq (Cls "18") (Seq (Cls "=") (Seq (Cls "QRBN") suffix))))).

(** [^[a-h]x[a-h][1-8][+#]?[!?]*$] *)
Definition PAWN_CAPTURE : regex :=
  Seq (Cls files) (Seq (Cls "x") (Seq (Cls files) (Seq (Cls ranks) suffix))).

(** [^[a-h][1-8][+#]?[!?]*$] *)
Definition PAWN_MOVE : regex :=
  Seq (Cls files) (Seq (Cls ranks) suffix).

(** [^[KQRBN][a-h]?[1-8]?x?[a-h][1-8][+#]?[!?]*$] *)
Definition PIECE_MOVE : regex :=
  Seq (Cls "KQRBN") (Seq (Opt (Cls files)) (Seq (Opt (Cls ranks))
    (Seq (Opt (Cls "x")) (Seq (Cls files) (Seq (Cls ranks) suffix))))).

(** [self.patterns], in insertion order. *)
Definition patterns : list (string * regex) :=
  [("castling", CASTLING); ("promotion", PAWN_PROMOTION);
   ("pawn_capture", PAWN_CAPTURE); ("pawn_move", PAWN_MOVE);
   ("piece_move", PIECE_MOVE)]%string.

Definition contains (c : ascii) (s : string) : bool := Py.char_in c s.

Definition _generate_error_message (move : string) : string :=
  (if Py.startswith (Py.lower move) "o-o" then
     "Invalid castling notation: use 'O-O' (kingside) or 'O-O-O' (queenside) with capital letter O"
   else if contains "=" move then
     "Invalid promotion format: examples - e8=Q, axb8=N, d1=R+"
   else if contains "x" move && (3 <=? String.length move)%nat then
     "Invalid capture notation: examples - exd5, Nxf6, Bxc4"
   else
     "Invalid move format: '" +:+ move +:+ "'" +:+ Py.nl +:+
     "Valid examples:" +:+ Py.nl +:+
     "  - Pawn moves: e4, d5" +:+ Py.nl +:+
     "  - Piece moves: Nf3, Bb5, Qd4" +:+ Py.nl +:+
     "  - Captures: exd5, Nxf6" +:+ Py.nl +:+
     "  - Castling: O-O, O-O-O" +:+ Py.nl +:+
     "  - Promotion: e8=Q, axb8=N" +:+ Py.nl +:+
     "  - Check/Checkmate: Nf7+, Qh5#")%string.

(** The lower-case-piece guard of [validate_move]. *)
Definition lowercase_piece (move : string) : bool :=
  match move with
  | String c rest =>
      Py.char_in c "kqrbn" &&
      negb (match rest with
            | String d EmptyString => Py.char_in d ranks
            | _ => false
            end)
  | EmptyString => false
  end.

Definition uppercase_message (move : string) : string :=
  match move with
  | String c rest =>
      ("Piece notation must be uppercase (use '" +:+
       String (Py.upper c) rest +:+ "' instead of '" +:+ move +:+ "')")%string
  | EmptyString => EmptyString
  end.

(** First digit of the move that is not in [1..8]. *)
Definition bad_rank (move : string) : option ascii :=
  List.find (fun r => negb (Py.char_in r ranks)) (findall_range 48 57 move).

(** First lower-case letter that is neither a file nor one of [xkqrbn]. *)
Definition bad_letter (move : string) : option ascii :=
  List.find (fun f => negb (Py.char_in f files) && negb (Py.char_in f "xkqrbn"))
            (findall_range 97 122 move).

Definition char_str (c : ascii) : string := String c EmptyString.

(** The promotion check: [Some msg] when the move is rejected there. *)
Definition promotion_error (move : string) : option string :=
  if contains "=" move then
    match search_promo move with
    | Some p =>
        if negb (Py.char_in p "QRBN") then
          Some ("Invalid promotion piece '" +:+ char_str p +:+
                "': can only promote to Q, R, B, or N")%string
        else None
    | None => Some "Invalid promotion format: use '=Q', '=R', '=B', or '=N'"%string
    end
  else None.

Definition validate_move (move : string) : bool * string :=
  match Py.strip move with
  | EmptyString => (false, "Move cannot be empty"%string)
  | move =>
      if lowercase_piece move then (false, uppercase_message move)
      else match bad_rank move with
      | Some r => (false, ("Invalid rank '" +:+ char_str r +:+ "': ranks must be 1-8")%string)
      | None =>
      match bad_letter move with
      | Some f => (false, ("Invalid character '" +:+ char_str f +:+ "' in move")%string)
      | None =>
      match promotion_error move with
      | Some msg => (false, msg)
      | None =>
          if existsb (fun p => matches (snd p) move) patterns then (true, EmptyString)
          else (false, _generate_error_message move)
      end end end
  end.

Definition is_castling (move : string) : bool := matches CASTLING (Py.strip move).
Definition is_promotion (move : string) : bool := matches PAWN_PROMOTION (Py.strip move).

(** [piece in "KQRBN"], a substring test. *)
Definition is_valid_piece (piece : string) : bool := Py.str_in piece "KQRBN".

Definition is_valid_square (square : string) : bool :=
  match square with
  | String file (String rank EmptyString) =>
      Py.char_in file "abcdefgh" && Py.char_in rank "12345678"
  | _ => false
  end.

(** The characters that the five patterns use. *)
Definition SAN_CHARS : string := "O-abcdefgh12345678xKQRBN=+#!?"%string.

End MoveValidator.


(** ** [pgn_exporter.py] *)

Module PGNExporter.

(** One iteration of the loop of [format_moves]: the f-string appended
    to [lines] for record number [i]. *)
Definition move_line (i : nat) (white_move : string) (black_move : option string) : string :=
  match black_move with
  | Some (String _ _ as bm) =>
      (pretty i +:+ ". " +:+ white_move +:+ " " +:+ bm +:+ " ")%string
  | _ => (pretty i +:+ ". " +:+ white_move +:+ " ")%string
  end.

(** [for i, (white_move, black_move) in enumerate(moves, i): lines.append(...)] *)
Fixpoint append_lines (lines : list string) (i : nat)
    (moves : list (string * option string)) : list string :=
  match moves with
  | [] => lines
  | (white_move, black_move) :: rest =>
      append_lines (lines ++ [move_line i white_move black_move]) (S i) rest
  end.

Definition REQUIRED_HEADERS : list string :=
  ["Event"; "Site"; "Date"; "Round"; "White"; "Black"; "Result"]%string.

(** The f-string of [format_headers] for one header. *)
Definition header_line (header value : string) : string :=
  ("[" +:+ header +:+ " " +:+ Py.dquote +:+ value +:+ Py.dquote +:+ "]")%string.

Definition format_headers (metadata : gmap string string) : string :=
  Py.join Py.nl
    (map (fun header => header_line header (default "?"%string (metadata !! header)))
         REQUIRED_HEADERS).

(** The [.get] calls and the f-string of [generate_filename]. *)
Definition generate_filename (metadata : gmap string string) : string :=
  let white := Py.replace_char " " "_" (default "Player1"%string (metadata !! "White"%string)) in
  let black := Py.replace_char " " "_" (default "Player2"%string (metadata !! "Black"%string)) in
  let date := default "0000.00.00"%string (metadata !! "Date"%string) in
  let round_num := default "1"%string (metadata !! "Round"%string) in
  (white +:+ "_" +:+ black +:+ "_" +:+ date +:+ "_" +:+ round_num +:+ ".pgn")%string.

Definition format_moves (moves : list (string * option string)) (result : string) : string :=
  match moves with
  | [] => result
  | _ => Py.join Py.nl (append_lines [] 1 moves ++ [result])
  end.

(** The rendering as the exporter contract words it: a record with a
    black half is the line [<n>. <whiteSan> <blackSan> ], a record
    without one is [<n>. <whiteSan> ]. *)
Definition contract_line (n : nat) (r : string * option string) : string :=
  match r.2 with
  | Some b => (pretty n +:+ ". " +:+ r.1 +:+ " " +:+ b +:+ " ")%string
  | None => (pretty n +:+ ". " +:+ r.1 +:+ " ")%string
  end.

(** The lines joined by newlines, the result last. *)
Definition contract_text (moves : list (string * option string)) (result : string) : string :=
  Py.join Py.nl (imap (fun i r => contract_line (S i) r) moves ++ [result]).

(** Reads an empty black half as an absent one. *)
Definition drop_empty_black (r : string * option string) : string * option string :=
  match r.2 with
  | Some EmptyString => (r.1, None)
  | _ => r
  end.

End PGNExporter.

(** ** The interface of the [chess] library that [chess_game.py] uses

    The rules engine is a third-party library; the session code only
    calls the operations below, so it is embedded over any
    implementation of them. *)

Module Chess.

(** The three exception classes that the session catches; [str(e)] is
    the carried message. *)
Inductive san_error : Type :=
| IllegalMoveError (msg : string)
| InvalidMoveError (msg : string)
| AmbiguousMoveError (msg : string).

Definition str (e : san_error) : string :=
  match e with
  | IllegalMoveError msg | InvalidMoveError msg | AmbiguousMoveError msg => msg
  end.

Definition WHITE : bool := true.
Definition BLACK : bool := false.

(** The operations, over the library's positions and moves. *)
Class Rules (Position Move : Type) : Type := {
  (** the position of [chess.Board()] *)
  starting : Position;
  (** [board.turn] *)
  turn : Position -> bool;
  (** [board.parse_san(san)], which raises one of the three errors *)
  parse_san : Position -> string -> san_error + Move;
  (** the position after [board.push(move)] *)
  play : Position -> Move -> Position
}.

(** A [chess.Board]: the position on the board and the stack that
    [push] grows and [pop] shrinks (each entry keeps the position to
    restore and the move played from it). *)
Record Board (Position Move : Type) : Type := mkBoard {
  position : Position;
  move_stack : list (Position * Move)
}.
Arguments mkBoard {Position Move} position move_stack.
Arguments position {Position Move} b.
Arguments move_stack {Position Move} b.

Section Board.
Context {Position Move : Type} {R : Rules Position Move}.
#[local] Abbreviation Board := (Board Position Move).

(** [chess.Board()] *)
Definition new_board : Board := mkBoard starting [].

Definition push (b : Board) (m : Move) : Board :=
  mkBoard (play (position b) m) ((position b, m) :: move_stack b).

(** [board.pop()]; [None] stands for the [IndexError] of an empty stack. *)
Definition pop (b : Board) : option (Move * Board) :=
  match move_stack b with
  | [] => None
  | (p, m) :: rest => Some (m, mkBoard p rest)
  end.

(** [board.push_san(san)] *)
Definition push_san (b : Board) (san : string) : san_error + Board :=
  match parse_san (position b) san with
  | inl e => inl e
  | inr m => inr (push b m)
  end.

End Board.
End Chess.

(** ** [src/chess_game.py] *)

Module Game.
Import Chess.
Local Open Scope string_scope.

(** Exceptions that leave a method of [ChessGame]. *)
Inductive exn : Type :=
| ValueError (msg : string)
| IndexError (msg : string).

Inductive outcome (A : Type) : Type :=
| Return (a : A)
| Raise (e : exn).
Arguments Return {A} a.
Arguments Raise {A} e.

Section ChessGame.
Context {Position Move : Type} {R : Rules Position Move}.
#[local] Abbreviation Board := (Board Position Move).

(** The attributes of a [ChessGame] object. *)
Record ChessGame : Type := mkGame {
  metadata : gmap string string;
  moves : list (string * option string);
  result : string;
  board : Board;
  _pending_white_move : option string
}.

(** A method body: it runs on the object and leaves it in some state,
    whether it returns or raises. *)
Definition M (A : Type) : Type := ChessGame -> outcome A * ChessGame.

Definition ret {A} (a : A) : M A := fun self => (Return a, self).
Definition raise {A} (e : exn) : M A := fun self => (Raise e, self).
Definition bind {A B} (m : M A) (k : A -> M B) : M B :=
  fun self =>
    match m self with
    | (Return a, self') => k a self'
    | (Raise e, self') => (Raise e, self')
    end.
Definition gets {A} (f : ChessGame -> A) : M A := fun self => (Return (f self), self).

Notation "'let*' x ':=' m 'in' k" := (bind m (fun x => k))
  (at level 10, x pattern, m at level 100, k at level 200).
Notation "m ';;' k" := (bind m (fun _ => k))
  (at level 100, k at level 200, right associativity).

Definition set_metadata (v : gmap string string) : M unit :=
  fun self => (Return tt, mkGame v (moves self) (result self) (board self) (_pending_white_move self)).
Definition set_moves (v : list (string * option string)) : M unit :=
  fun self => (Return tt, mkGame (metadata self) v (result self) (board self) (_pending_white_move self)).
Definition set_result_attr (v : string) : M unit :=
  fun self => (Return tt, mkGame (metadata self) (moves self) v (board self) (_pending_white_move self)).
Definition set_board (v : Board) : M unit :=
  fun self => (Return tt, mkGame (metadata self) (moves self) (result self) v (_pending_white_move self)).
Definition set_pending (v : option string) : M unit :=
  fun self => (Return tt, mkGame (metadata self) (moves self) (result self) (board self) v).

(** [self.board.pop()] *)
Definition board_pop : M unit :=
  let* b := gets board in
  match pop b with
  | Some (_, b') => set_board b'
  | None => raise (IndexError "pop from empty list")
  end.

(** [self.moves.pop()], called on a non-empty list only. *)
Definition moves_pop : M unit :=
  let* ms := gets moves in
  match ms with
  | [] => raise (IndexError "pop from empty list")
  | _ => set_moves (removelast ms)
  end.

Definition is_None {A} (o : option A) : bool :=
  match o with None => true | Some _ => false end.

(** [ChessGame(metadata)] *)
Definition __init__ (md : gmap string string) : ChessGame :=
  mkGame md [] (default "*"%string (md !! "Result"%string)) new_board None.

Definition add_move (white_move black_move : option string) : M unit :=
  match white_move, black_move with
  | Some w, Some b => let* ms := gets moves in set_moves (ms ++ [(w, Some b)])
  | Some w, None => let* ms := gets moves in set_moves (ms ++ [(w, None)])
  | None, _ => ret tt
  end.

Definition validate_and_add_move (move color : string) : M (bool * string) :=
  let (is_valid_format, error_msg) := MoveValidator.validate_move move in
  if negb is_valid_format then ret (false, error_msg) else
  let* b := gets board in
  let expected_white_turn := Bool.eqb (turn (position b)) WHITE in
  let is_white_move := String.eqb color "white" in
  if negb (Bool.eqb expected_white_turn is_white_move) then
    let expected_color := if expected_white_turn then "White" else "Black" in
    ret (false, ("It's " +:+ expected_color +:+ "'s turn to move")%string)
  else
    match parse_san (position b) move with
    | inl e => ret (false, ("Illegal move: " +:+ str e)%string)
    | inr chess_move =>
        set_board (push b chess_move) ;;
        if String.eqb color "white" then
          set_pending (Some move) ;; ret (true, ""%string)
        else
          let* pending := gets _pending_white_move in
          match pending with
          | Some w =>
              add_move (Some w) (Some move) ;;
              set_pending None ;;
              ret (true, ""%string)
          | None =>
              ret (false, "Cannot add black move without a white move first"%string)
          end
    end.

Definition finalize_pending_move : M unit :=
  let* pending := gets _pending_white_move in
  match pending with
  | Some w => add_move (Some w) None ;; set_pending None
  | None => ret tt
  end.

(** The replay loop of [edit_move] on [temp_board]. *)
Fixpoint replay (temp_board : Board) (temp_moves : list (string * option string))
    : san_error + Board :=
  match temp_moves with
  | [] => inr temp_board
  | (w_move, b_move) :: rest =>
      match push_san temp_board w_move with
      | inl e => inl e
      | inr b1 =>
          if Py.truthy b_move then
            match push_san b1 (default EmptyString b_move) with
            | inl e => inl e
            | inr b2 => replay b2 rest
            end
          else replay b1 rest
      end
  end.

Definition edit_move (move_number : Z) (color new_move : string) : M (bool * string) :=
  let (is_valid, error_msg) := MoveValidator.validate_move new_move in
  if negb is_valid then ret (false, error_msg) else
  let* ms := gets moves in
  if ((move_number <? 1) || (Z.of_nat (length ms) <? move_number))%Z then
    ret (false, ("Invalid move number: " +:+ pretty move_number)%string)
  else
    let idx := Z.to_nat (move_number - 1) in
    match ms !! idx with
    | None => raise (IndexError "list index out of range")
    | Some (white_move, black_move) =>
        if String.eqb color "black" && is_None black_move then
          ret (false, "This move pair has no black move to edit"%string)
        else
          let temp_moves :=
            if String.eqb color "white" then <[idx := (new_move, black_move)]> ms
            else <[idx := (white_move, Some new_move)]> ms in
          match replay new_board temp_moves with
          | inl _ => ret (false, "This edit would create an illegal position"%string)
          | inr temp_board =>
              set_moves temp_moves ;;
              set_board temp_board ;;
              ret (true, "Move updated successfully"%string)
          end
    end.

Definition undo_last_move : M bool :=
  let* pending := gets _pending_white_move in
  match pending with
  | Some _ => board_pop ;; set_pending None ;; ret true
  | None =>
      let* ms := gets moves in
      match last ms with
      | None => ret false
      | Some (white_move, black_move) =>
          match black_move with
          | Some _ =>
              board_pop ;;
              set_moves (<[pred (length ms) := (white_move, None)]> ms) ;;
              set_pending (Some white_move) ;;
              moves_pop ;;
              ret true
          | None => board_pop ;; moves_pop ;; ret true
          end
      end
  end.

Definition get_move_count : M nat := gets (fun self => length (moves self)).




Definition valid_results : list string := ["1-0"; "0-1"; "1/2-1/2"; "*"]%string.

Definition set_result (res : string) : M unit :=
  if existsb (String.eqb res) valid_results then
    set_result_attr res ;;
    let* md := gets metadata in
    set_metadata (<["Result"%string := res]> md)
  else
    raise (ValueError ("Invalid result: " +:+ res +:+
                       ". Must be one of ['1-0', '0-1', '1/2-1/2', '*']")%string).

Definition get_moves_list : M (list (string * option string)) := gets moves.

Definition has_pending_white_move : M bool :=
  gets (fun self => negb (is_None (_pending_white_move self))).

(** *** Calls on a session

    The public operations as data, so that call sequences and the
    states they reach can be talked about. *)

Inductive Op : Type :=
| Propose (san color : string)           (* validate_and_add_move *)
| Undo                                   (* undo_last_move *)
| Edit (move_number : Z) (color san : string)   (* edit_move *)
| Finalize                               (* finalize_pending_move *)
| SetResult (res : string).              (* set_result *)

(** What a call hands back. *)
Inductive Value : Type :=
| VTuple (r : bool * string)
| VBool (b : bool)
| VNone.

Definition run_op (op : Op) : M Value :=
  match op with
  | Propose san color => let* r := validate_and_add_move san color in ret (VTuple r)
  | Undo => let* b := undo_last_move in ret (VBool b)
  | Edit n color san => let* r := edit_move n color san in ret (VTuple r)
  | Finalize => finalize_pending_move ;; ret VNone
  | SetResult res => set_result res ;; ret VNone
  end.

(** Runs the calls in order, whatever each one returns or raises (the
    caller catches and goes on), and collects the outcomes. *)
Fixpoint run_ops (ops : list Op) (self : ChessGame) : list (outcome Value) * ChessGame :=
  match ops with
  | [] => ([], self)
  | op :: rest =>
      let (o, self') := run_op op self in
      let (os, final) := run_ops rest self' in
      (o :: os, final)
  end.

(** The call returned success: [(True, _)], [True], or a plain return. *)
Definition succeeded (o : outcome Value) : bool :=
  match o with
  | Return (VTuple (ok, _)) => ok
  | Return (VBool b) => b
  | Return VNone => true
  | Raise _ => false
  end.

(** States that a fresh session reaches through the public operations. *)
Inductive reachable : ChessGame -> Prop :=
| reachable_init (md : gmap string string) : reachable (__init__ md)
| reachable_step (self self' : ChessGame) (op : Op) (o : outcome Value) :
    reachable self -> run_op op self = (o, self') -> reachable self'.

(** The SAN moves of a list of records, in playing order. *)
Definition sans_of (ms : list (string * option string)) : list string :=
  flat_map (fun r => r.1 :: option_list r.2) ms.

(** The recorded SAN moves in playing order: every record of [moves],
    then the pending white move when there is one. *)
Definition recorded_sans (self : ChessGame) : list string :=
  sans_of (moves self) ++ option_list (_pending_white_move self).

(** Every move of the list passes the format check. *)
Definition all_valid (sans : list string) : Prop :=
  Forall (fun san => (MoveValidator.validate_move san).1 = true) sans.

(** Plays a list of SAN moves on a board. *)
Fixpoint play_sans (b : Board) (sans : list string) : san_error + Board :=
  match sans with
  | [] => inr b
  | san :: rest =>
      match push_san b san with
      | inl e => inl e
      | inr b' => play_sans b' rest
      end
  end.

(** History/position consistency: the board shows the position that
    replaying the recorded moves from the start gives. *)
Definition consistent (self : ChessGame) : Prop :=
  exists b, play_sans new_board (recorded_sans self) = inr b
            /\ position (board self) = position b.

(** Half-moves in a list of records. *)
Definition plies (ms : list (string * option string)) : nat :=
  length (sans_of ms).

(** At most the last record lacks its black half. *)
Definition only_last_incomplete (ms : list (string * option string)) : Prop :=
  forall i w, ms !! i = Some (w, None) -> S i = length ms.

(** Every recorded half-move but at most one is on the stack of the
    board, and recorded black halves are non-empty strings. *)
Definition stack_covers (self : ChessGame) : Prop :=
  (plies (moves self) + length (option_list (_pending_white_move self))
     <= S (length (move_stack (board self))))%nat
  /\ forall w b, (w, Some b) ∈ moves self -> b <> EmptyString.

(** The board, stack included, is the one that replaying the recorded
    moves from the start builds. *)
Definition synced (self : ChessGame) : Prop :=
  play_sans new_board (recorded_sans self) = inr (board self).

(** Every record has its black half. *)
Definition all_complete (ms : list (string * option string)) : Prop :=
  Forall (fun r => is_Some r.2) ms.

(** A session whose board and history are in step and whose records are
    paired as the data model says: all complete while a white move is
    pending, all but possibly the last complete otherwise. *)
Definition orderly (self : ChessGame) : Prop :=
  synced self /\ stack_covers self
  /\ match _pending_white_move self with
     | Some _ => all_complete (moves self)
     | None => only_last_incomplete (moves self)
     end.

(** The calls all return success, and no [edit_move] is made while a
    white move is pending. *)
Fixpoint disciplined (ops : list Op) (self : ChessGame) : Prop :=
  match ops with
  | [] => True
  | op :: rest =>
      succeeded (run_op op self).1 = true
      /\ match op with
         | Edit _ _ _ => _pending_white_move self = None
         | _ => True
         end
      /\ disciplined rest (run_op op self).2
  end.

End ChessGame.

Arguments ChessGame Position Move : clear implicits.

End Game.

(** ** [pgn_exporter.py], the methods that take a game or touch files *)

Module PGNFile.
Import Chess Game PGNExporter.
Local Open Scope string_scope.

Section OnGame.
Context {Position Move : Type}.
#[local] Abbreviation ChessGame := (ChessGame Position Move).

Definition generate_pgn_string (game : ChessGame) : string :=
  format_headers (metadata game) +:+ Py.nl +:+ Py.nl +:+
  format_moves (moves game) (result game) +:+ Py.nl.

Definition preview_pgn (game : ChessGame) : string :=
  let border := Py.repeat_char "=" 50 in
  Py.nl +:+ border +:+ Py.nl +:+ generate_pgn_string game +:+ border +:+ Py.nl.

End OnGame.

(** [os.path.join(directory, name)] for one name, as [posixpath] does it. *)
Definition path_join (directory name : string) : string :=
  if Py.startswith name "/" then name
  else match directory with
       | EmptyString => name
       | _ => if Py.endswith directory "/" then directory +:+ name
              else directory +:+ "/" +:+ name
       end.

(** The files on disk: the content stored under each path.
    [os.path.exists(p)] is [is_Some (fs !! p)]. *)
Abbreviation Files := (gmap string string).

Definition exists_ (fs : Files) (filepath : string) : bool :=
  bool_decide (is_Some (fs !! filepath)).

(** The candidate name that the loop of [ensure_unique_filename] tries
    for [counter]. *)
Definition numbered (base_name : string) (counter : nat) : string :=
  base_name +:+ "_" +:+ pretty counter +:+ ".pgn".

(** The [while True] loop of [ensure_unique_filename], run for at most
    [fuel] rounds; [None] when the rounds run out. *)
Fixpoint unique_loop (fs : Files) (directory base_name : string)
    (fuel counter : nat) : option string :=
  match fuel with
  | O => None
  | S fuel' =>
      let new_filename := numbered base_name counter in
      if negb (exists_ fs (path_join directory new_filename)) then Some new_filename
      else unique_loop fs directory base_name fuel' (S counter)
  end.

Definition ensure_unique_filename (fs : Files) (fuel : nat)
    (filename directory : string) : option string :=
  if negb (exists_ fs (path_join directory filename)) then Some filename
  else unique_loop fs directory (Py.drop_last 4 filename) fuel 2.

(** [export_to_file]: the path written and the files afterwards.  The
    write itself is taken to succeed. *)
Definition export_to_file {Position Move : Type} (fs : Files) (fuel : nat)
    (game : Game.ChessGame Position Move) (filename : option string)
    (directory : string) : option (string * Files) :=
  let filename := match filename with
                  | None => generate_filename (metadata game)
                  | Some f => f
                  end in
  let filename := if negb (Py.endswith filename ".pgn") then filename +:+ ".pgn"
                  else filename in
  match ensure_unique_filename fs fuel filename directory with
  | None => None
  | Some filename =>
      let filepath := path_join directory filename in
      Some (filepath, <[filepath := generate_pgn_string game]> fs)
  end.

End PGNFile.

(** ** [src/chess_pgn.py]: the prompts for the metadata and the result

    The console is the list of lines still to be typed: [input(prompt)]
    takes the first one and raises [EOFError] when none is left.  What is
    printed is left out. *)

Module App.
Local Open Scope string_scope.

(** A function that reads the console: [None] stands for [EOFError]. *)
Definition Console (A : Type) : Type := list string -> option (A * list string).

Definition ret {A} (a : A) : Console A := fun lines => Some (a, lines).
Definition bind {A B} (m : Console A) (k : A -> Console B) : Console B :=
  fun lines =>
    match m lines with
    | Some (a, rest) => k a rest
    | None => None
    end.

#[local] Notation "'let*' x ':=' m 'in' k" := (bind m (fun x => k))
  (at level 10, x pattern, m at level 100, k at level 200).

(** [input(prompt)] *)
Definition input : Console string :=
  fun lines =>
    match lines with
    | [] => None
    | line :: rest => Some (line, rest)
    end.

(** [date.today()]: the year, month and day of the call. *)
Record date : Type := mkDate { year : nat; month : nat; day : nat }.

(** [f"{n:02d}"] *)
Definition pad2 (n : nat) : string :=
  if (n <? 10)%nat then "0" +:+ pretty n else pretty n.

(** [x = input(prompt).strip()] followed by [if not x: x = default]. *)
Definition ask (default : string) : Console string :=
  let* line := input in
  ret (match Py.strip line with
       | EmptyString => default
       | x => x
       end).

Definition collect_metadata (today : date) : Console (gmap string string) :=
  let* event := ask "Casual Game" in
  let* site := ask "Local" in
  let* date_str :=
    ask (pretty (year today) +:+ "." +:+ pad2 (month today) +:+ "." +:+
         pad2 (day today)) in
  let* round_num := ask "1" in
  let* white := ask "Player 1" in
  let* black := ask "Player 2" in
  ret (<["Event" := event]> (<["Site" := site]> (<["Date" := date_str]>
      (<["Round" := round_num]> (<["White" := white]> (<["Black" := black]>
      (<["Result" := "*"]> ∅))))))).

(** The [while True] loop of [get_result]: one line is read in each round. *)
Fixpoint get_result (lines : list string) : option (string * list string) :=
  match lines with
  | [] => None
  | line :: rest =>
      let result := Py.strip line in
      if existsb (String.eqb result) ["1-0"; "0-1"; "1/2-1/2"; "*"]
      then Some (result, rest)
      else get_result rest
  end.

End App.

(** ** A rules engine to run the session on

    Modelled from the spec: the Position, the Move Generator and the
    parsing half of the SAN Codec of sections 3, 4.1 and 4.2.  The source
    delegates them to the third-party [chess] library, which is not part
    of the repository; this engine instantiates [Chess.Rules] so that the
    session can be evaluated on concrete games.  The status queries and
    [encode], which the modelled session methods never call, are left out.
    The properties proved for every [Chess.Rules] do not depend on it. *)

Module Engine.
Local Open Scope list_scope.
Local Open Scope Z_scope.

Inductive Kind : Type := Pawn | Knight | Bishop | Rook | Queen | King.
Inductive Color : Type := White | Black.
Inductive CastleSide : Type := Kingside | Queenside.

#[global] Instance Kind_eq_dec : EqDecision Kind.
Proof. solve_decision. Defined.
#[global] Instance Color_eq_dec : EqDecision Color.
Proof. solve_decision. Defined.
#[global] Instance CastleSide_eq_dec : EqDecision CastleSide.
Proof. solve_decision. Defined.

Record Piece : Type := mkPiece { kind : Kind; color : Color }.

#[global] Instance Piece_eq_dec : EqDecision Piece.
Proof. solve_decision. Defined.

(** file (0..7, a..h) and rank (0..7, 1..8) *)
Definition Square : Type := (Z * Z)%type.

Record Position : Type := mkPosition {
  board : list (option Piece);           (* 64 entries, index 8 * rank + file *)
  sideToMove : Color;
  castlingRights : list (Color * CastleSide);
  enPassantTarget : option Square;
  halfmoveClock : nat;
  fullmoveNumber : nat
}.

Record Move : Type := mkMove {
  from : Square;
  to : Square;
  piece : Piece;
  capturedPiece : option Piece;
  promotion : option Kind;
  isCastle : option CastleSide;
  isEnPassant : bool
}.

Definition opponent (c : Color) : Color :=
  match c with White => Black | Black => White end.

Definition on_board (sq : Square) : bool :=
  (0 <=? sq.1) && (sq.1 <? 8) && (0 <=? sq.2) && (sq.2 <? 8).

Definition index (sq : Square) : nat := Z.to_nat (8 * sq.2 + sq.1).

Definition piece_at (b : list (option Piece)) (sq : Square) : option Piece :=
  if on_board sq then
    match b !! index sq with Some (Some p) => Some p | _ => None end
  else None.

Definition put (b : list (option Piece)) (sq : Square) (x : option Piece)
    : list (option Piece) := <[index sq := x]> b.

Definition sq_eqb (a b : Square) : bool := (a.1 =? b.1) && (a.2 =? b.2).

Definition shift (sq d : Square) : Square := (sq.1 + d.1, sq.2 + d.2).

Definition all_squares : list Square :=
  flat_map (fun r => map (fun f => (f, r)) (seqZ 0 8)) (seqZ 0 8).

Definition back_rank (c : Color) : list (option Piece) :=
  map (fun k => Some (mkPiece k c)) [Rook; Knight; Bishop; Queen; King; Bishop; Knight; Rook].

Definition initialPosition : Position :=
  mkPosition
    (back_rank White ++ replicate 8 (Some (mkPiece Pawn White)) ++
     replicate 32 None ++
     replicate 8 (Some (mkPiece Pawn Black)) ++ back_rank Black)
    White
    [(White, Kingside); (White, Queenside); (Black, Kingside); (Black, Queenside)]
    None 0 1.

(** *** Move generator (section 4.1) *)

Definition knight_steps : list Square :=
  [(1, 2); (2, 1); (2, -1); (1, -2); (-1, -2); (-2, -1); (-2, 1); (-1, 2)].
Definition diagonals : list Square := [(1, 1); (1, -1); (-1, -1); (-1, 1)].
Definition straights : list Square := [(1, 0); (0, -1); (-1, 0); (0, 1)].

(** forward direction of a pawn *)
Definition forward (c : Color) : Z := match c with White => 1 | Black => -1 end.
Definition start_rank (c : Color) : Z := match c with White => 1 | Black => 6 end.
Definition last_rank (c : Color) : Z := match c with White => 7 | Black => 0 end.

(** Squares along one direction, up to and including the first occupied one. *)
Fixpoint ray (b : list (option Piece)) (sq d : Square) (steps : nat) : list Square :=
  match steps with
  | O => []
  | S n =>
      let nx := shift sq d in
      if on_board nx then
        nx :: (match piece_at b nx with None => ray b nx d n | Some _ => [] end)
      else []
  end.

(** Squares that the piece [pc] standing on [sq] attacks. *)
Definition targets (b : list (option Piece)) (sq : Square) (pc : Piece) : list Square :=
  match kind pc with
  | Pawn => filter (fun t => on_board t = true)
              [(sq.1 - 1, sq.2 + forward (color pc)); (sq.1 + 1, sq.2 + forward (color pc))]
  | Knight => filter (fun t => on_board t = true) (map (shift sq) knight_steps)
  | King => filter (fun t => on_board t = true) (map (shift sq) (diagonals ++ straights))
  | Bishop => flat_map (fun d => ray b sq d 7) diagonals
  | Rook => flat_map (fun d => ray b sq d 7) straights
  | Queen => flat_map (fun d => ray b sq d 7) (diagonals ++ straights)
  end.

(** Is [sq] attacked by a piece of colour [by]? *)
Definition attacked (b : list (option Piece)) (sq : Square) (by_ : Color) : bool :=
  existsb (fun s =>
    match piece_at b s with
    | Some pc => bool_decide (color pc = by_) && existsb (sq_eqb sq) (targets b s pc)
    | None => false
    end) all_squares.

Definition plain (s t : Square) (pc : Piece) (cap : option Piece) (promo : option Kind) : Move :=
  mkMove s t pc cap promo None false.

(** One pawn move to [t], or the four promotions on the last rank. *)
Definition pawn_arrivals (s t : Square) (pc : Piece) (cap : option Piece) : list Move :=
  if t.2 =? last_rank (color pc)
  then map (fun k => plain s t pc cap (Some k)) [Queen; Rook; Bishop; Knight]
  else [plain s t pc cap None].

Definition pawn_moves (p : Position) (s : Square) (pc : Piece) : list Move :=
  let b := board p in
  let c := color pc in
  let one := (s.1, s.2 + forward c) in
  let two := (s.1, s.2 + 2 * forward c) in
  (if on_board one && negb (bool_decide (is_Some (piece_at b one))) then
     pawn_arrivals s one pc None ++
     (if (s.2 =? start_rank c) && negb (bool_decide (is_Some (piece_at b two)))
      then [plain s two pc None None] else [])
   else []) ++
  flat_map (fun t =>
    match piece_at b t with
    | Some q => if bool_decide (color q = c) then [] else pawn_arrivals s t pc (Some q)
    | None =>
        match enPassantTarget p with
        | Some ep =>
            if sq_eqb ep t
            then [mkMove s t pc (piece_at b (t.1, s.2)) None None true]
            else []
        | None => []
        end
    end) (targets b s pc).

Definition piece_moves (p : Position) (s : Square) (pc : Piece) : list Move :=
  flat_map (fun t =>
    match piece_at (board p) t with
    | Some q => if bool_decide (color q = color pc) then [] else [plain s t pc (Some q) None]
    | None => [plain s t pc None None]
    end) (targets (board p) s pc).

Definition home_rank (c : Color) : Z := match c with White => 0 | Black => 7 end.

(** Castling of the side to move towards [side]. *)
Definition castle_moves (p : Position) (side : CastleSide) : list Move :=
  let c := sideToMove p in
  let b := board p in
  let r := home_rank c in
  let between := match side with Kingside => [5; 6] | Queenside => [1; 2; 3] end in
  let path := match side with Kingside => [4; 5; 6] | Queenside => [4; 3; 2] end in
  let rook_file := match side with Kingside => 7 | Queenside => 0 end in
  let king_to := match side with Kingside => 6 | Queenside => 2 end in
  if bool_decide ((c, side) ∈ castlingRights p)
     && bool_decide (piece_at b (4, r) = Some (mkPiece King c))
     && bool_decide (piece_at b (rook_file, r) = Some (mkPiece Rook c))
     && forallb (fun f => negb (bool_decide (is_Some (piece_at b (f, r))))) between
     && forallb (fun f => negb (attacked b (f, r) (opponent c))) path
  then [mkMove (4, r) (king_to, r) (mkPiece King c) None None (Some side) false]
  else [].

Definition pseudoLegalMoves (p : Position) : list Move :=
  flat_map (fun s =>
    match piece_at (board p) s with
    | Some pc =>
        if bool_decide (color pc = sideToMove p) then
          match kind pc with
          | Pawn => pawn_moves p s pc
          | _ => piece_moves p s pc
          end
        else []
    | None => []
    end) all_squares
  ++ castle_moves p Kingside ++ castle_moves p Queenside.

(** The rights lost when a piece leaves or lands on [sq]. *)
Definition rights_touched (sq : Square) : list (Color * CastleSide) :=
  flat_map (fun c =>
    (if sq_eqb sq (4, home_rank c) then [(c, Kingside); (c, Queenside)] else []) ++
    (if sq_eqb sq (7, home_rank c) then [(c, Kingside)] else []) ++
    (if sq_eqb sq (0, home_rank c) then [(c, Queenside)] else [])) [White; Black].

Definition applyMove (p : Position) (m : Move) : Position :=
  let c := color (piece m) in
  let landed := match promotion m with
                | Some k => mkPiece k c
                | None => piece m
                end in
  let b1 := put (put (board p) (from m) None) (to m) (Some landed) in
  let b2 := if isEnPassant m then put b1 ((to m).1, (from m).2) None else b1 in
  let b3 := match isCastle m with
            | Some Kingside =>
                put (put b2 (7, (from m).2) None) (5, (from m).2) (Some (mkPiece Rook c))
            | Some Queenside =>
                put (put b2 (0, (from m).2) None) (3, (from m).2) (Some (mkPiece Rook c))
            | None => b2
            end in
  let lost := rights_touched (from m) ++ rights_touched (to m) in
  let double := bool_decide (kind (piece m) = Pawn)
                && (Z.abs ((to m).2 - (from m).2) =? 2) in
  mkPosition b3 (opponent (sideToMove p))
    (filter (fun cr => cr ∉ lost) (castlingRights p))
    (if double then Some ((from m).1, ((from m).2 + (to m).2) / 2) else None)
    (if bool_decide (kind (piece m) = Pawn) || bool_decide (is_Some (capturedPiece m))
     then 0%nat else S (halfmoveClock p))
    (match sideToMove p with
     | Black => S (fullmoveNumber p)
     | White => fullmoveNumber p
     end).

Definition king_square (b : list (option Piece)) (c : Color) : option Square :=
  List.find (fun s => bool_decide (piece_at b s = Some (mkPiece King c))) all_squares.

(** Is the king of colour [c] attacked in [p]? *)
Definition in_check (p : Position) (c : Color) : bool :=
  match king_square (board p) c with
  | Some k => attacked (board p) k (opponent c)
  | None => false
  end.

Definition legalMoves (p : Position) : list Move :=
  List.filter (fun m => negb (in_check (applyMove p m) (sideToMove p)))
              (pseudoLegalMoves p).

(** *** SAN codec (section 4.2) *)

Inductive NotationError : Type :=
| EmptyInput
| MalformedNotation (detail : string)
| IllegalMove
| AmbiguousMove.

(** What a SAN string says, before it is resolved against a position. *)
Inductive Shape : Type :=
| CastleShape (side : CastleSide)
| MoveShape (k : Kind) (from_file from_rank : option Z) (capture : bool)
            (dest : Square) (promo : option Kind).

Definition file_of (c : ascii) : option Z :=
  if Py.in_range 97 104 c then Some (Z.of_N (N_of_ascii c) - 97) else None.
Definition rank_of (c : ascii) : option Z :=
  if Py.in_range 49 56 c then Some (Z.of_N (N_of_ascii c) - 49) else None.

Definition kind_of (c : ascii) : option Kind :=
  (if Ascii.eqb c "K" then Some King else if Ascii.eqb c "Q" then Some Queen
   else if Ascii.eqb c "R" then Some Rook else if Ascii.eqb c "B" then Some Bishop
   else if Ascii.eqb c "N" then Some Knight else None)%char.

(** Drops the annotation suffix [!]/[?] and then one [+] or [#] from a
    reversed SAN. *)
Fixpoint drop_marks (rev_san : list ascii) : list ascii :=
  match rev_san with
  | c :: rest => if Py.char_in c "!?" then drop_marks rest else rev_san
  | [] => []
  end.
Definition drop_suffix (rev_san : list ascii) : list ascii :=
  match drop_marks rev_san with
  | c :: rest => if Py.char_in c "+#" then rest else c :: rest
  | [] => []
  end.

(** Optional [x], optional origin rank, optional origin file, read from
    the reversed text in front of the destination square. *)
Definition origin (rev_pre : list ascii) : option (option Z * option Z * bool) :=
  let (capture, r1) := match rev_pre with
                       | c :: rest => if Ascii.eqb c "x"%char then (true, rest) else (false, rev_pre)
                       | [] => (false, [])
                       end in
  let (from_rank, r2) := match r1 with
                         | c :: rest => match rank_of c with
                                        | Some r => (Some r, rest)
                                        | None => (None, r1)
                                        end
                         | [] => (None, [])
                         end in
  match r2 with
  | [] => Some (None, from_rank, capture)
  | [c] => match file_of c with
           | Some f => Some (Some f, from_rank, capture)
           | None => None
           end
  | _ => None
  end.

Definition shape_of (san : string) : NotationError + Shape :=
  let body := rev (drop_suffix (rev (list_ascii_of_string san))) in
  let text := string_of_list_ascii body in
  if String.eqb text "O-O" then inr (CastleShape Kingside)
  else if String.eqb text "O-O-O" then inr (CastleShape Queenside)
  else
    match body with
    | [] => inl (MalformedNotation "no move before the suffix")
    | c :: rest =>
        if Py.char_in c "kqrn" then
          inl (MalformedNotation ("piece letter must be uppercase: use '" +:+
                 String (Py.upper c) (string_of_list_ascii rest) +:+ "'")%string)
        else
          let (k, after) := match kind_of c with
                            | Some k => (k, rest)
                            | None => (Pawn, body)
                            end in
          let (promo, rev_core) :=
            match rev after with
            | p :: e :: more =>
                if Ascii.eqb e "="%char then (Some p, more) else (None, rev after)
            | other => (None, other)
            end in
          match rev_core with
          | r :: f :: rev_pre =>
              match rank_of r, file_of f, origin rev_pre with
              | None, _, _ => inl (MalformedNotation "rank outside 1-8")
              | _, None, _ => inl (MalformedNotation "file outside a-h")
              | _, _, None => inl (MalformedNotation "unrecognised origin")
              | Some dr, Some df, Some (ff, fr, capture) =>
                  match promo with
                  | None => inr (MoveShape k ff fr capture (df, dr) None)
                  | Some p =>
                      match kind_of p with
                      | Some King | None =>
                          inl (MalformedNotation "promotion piece outside Q, R, B, N")
                      | Some pk =>
                          if bool_decide (k = Pawn)
                          then inr (MoveShape k ff fr capture (df, dr) (Some pk))
                          else inl (MalformedNotation "only a pawn promotes")
                      end
                  end
              end
          | _ => inl (MalformedNotation "no destination square")
          end
    end.

Definition agrees (sh : Shape) (m : Move) : bool :=
  match sh with
  | CastleShape side => bool_decide (isCastle m = Some side)
  | MoveShape k ff fr capture dest promo =>
      bool_decide (isCastle m = None)
      && bool_decide (kind (piece m) = k)
      && sq_eqb (to m) dest
      && Bool.eqb capture (bool_decide (is_Some (capturedPiece m)))
      && bool_decide (promotion m = promo)
      && match ff with Some f => (from m).1 =? f | None => true end
      && match fr with Some r => (from m).2 =? r | None => true end
  end.

Definition parse (san : string) (p : Position) : NotationError + Move :=
  match Py.strip san with
  | EmptyString => inl EmptyInput
  | _ =>
      match shape_of san with
      | inl e => inl e
      | inr sh =>
          match List.filter (agrees sh) (legalMoves p) with
          | [] => inl IllegalMove
          | [m] => inr m
          | _ => inl AmbiguousMove
          end
      end
  end.

(** The engine behind the interface of the [chess] library. *)
#[global] Instance rules : Chess.Rules Position Move := {|
  Chess.starting := initialPosition;
  Chess.turn := fun p => bool_decide (sideToMove p = White);
  Chess.parse_san := fun p san =>
    match parse san p with
    | inr m => inr m
    | inl IllegalMove => inl (Chess.IllegalMoveError ("illegal san: '" +:+ san +:+ "'"))
    | inl AmbiguousMove => inl (Chess.AmbiguousMoveError ("ambiguous san: '" +:+ san +:+ "'"))
    | inl EmptyInput => inl (Chess.InvalidMoveError ("invalid san: '" +:+ san +:+ "'"))
    | inl (MalformedNotation detail) =>
        inl (Chess.InvalidMoveError ("invalid san: '" +:+ san +:+ "' (" +:+ detail +:+ ")"))
    end%string;
  Chess.play := applyMove
|}.

End Engine.

(** ** Sessions on the engine *)

Module Play.
Import Chess Game.
Local Open Scope string_scope.

(** A fresh session with no metadata. *)
Definition fresh : ChessGame Engine.Position Engine.Move := __init__ ∅.

(** The session after the given calls on a fresh one. *)
Definition after (ops : list Op) : ChessGame Engine.Position Engine.Move :=
  (run_ops ops fresh).2.

(** The outcomes of the given calls on a fresh session. *)
Definition outcomes (ops : list Op) : list (outcome Value) := (run_ops ops fresh).1.

(** Undo inverts append, as a property of one state and one proposal:
    [validate_and_add_move] then [undo_last_move] gives back the move
    records, the pending white move and the position. *)
Definition undo_restores {Position Move : Type} {R : Rules Position Move}
    (g : ChessGame Position Move) (san color : string) : Prop :=
  let g1 := (validate_and_add_move san color g).2 in
  let g2 := (undo_last_move g1).2 in
  moves g2 = moves g
  /\ _pending_white_move g2 = _pending_white_move g
  /\ position (board g2) = position (board g).

(** A directory that already holds [game.pgn] and [game_2.pgn]. *)
Definition two_games : PGNFile.Files :=
  <["./game.pgn" := "first"]> (<["./game_2.pgn" := "second"]> ∅).

End Play.

(** * Properties of the session, the validator and the exporter *)

Import Chess Game.
Local Open Scope string_scope.
Local Open Scope list_scope.

(** ** Case analyses of the session methods, over any rules engine *)

Section SessionLemmas.
Context {Position Move : Type} {R : Rules Position Move}.
#[local] Abbreviation Board := (Board Position Move).
#[local] Abbreviation ChessGame := (ChessGame Position Move).
Implicit Types g : ChessGame.

Local Arguments moves_pop : simpl never.

Lemma validate_and_add_move_cases san color g o g' :
  validate_and_add_move san color g = (o, g') ->
  (exists msg, o = Return (false, msg) /\ g' = g) \/
  exists m, fst (MoveValidator.validate_move san) = true
    /\ parse_san (position (board g)) san = inr m
    /\ ((color = "white" /\ o = Return (true, "")
         /\ g' = mkGame (metadata g) (moves g) (result g) (push (board g) m) (Some san))
        \/ (color <> "white" /\ exists w, _pending_white_move g = Some w
            /\ o = Return (true, "")
            /\ g' = mkGame (metadata g) (moves g ++ [(w, Some san)]) (result g)
                           (push (board g) m) None)
        \/ (color <> "white" /\ _pending_white_move g = None
            /\ o = Return (false, "Cannot add black move without a white move first")
            /\ g' = mkGame (metadata g) (moves g) (result g) (push (board g) m) None)).
Proof.
  unfold validate_and_add_move.
  destruct (MoveValidator.validate_move san) as [ok err].
  destruct ok; cbn [negb fst]; unfold bind, gets, ret; cbn.
  2:{ intros [= <- <-]. left; eauto. }
  destruct (negb _).
  { intros [= <- <-]. left; eauto. }
  destruct (parse_san _ san) as [e|m].
  { intros [= <- <-]. left; eauto. }
  right. exists m. split; [done|]. split; [done|].
  destruct (String.eqb_spec color "white") as [->|Hc]; cbn in *.
  { injection H as <- <-. left. done. }
  right. destruct (_pending_white_move g) as [w|] eqn:Hp; cbn in *.
  - injection H as <- <-. left. split; [done|]. exists w. done.
  - injection H as <- <-. right. done.
Qed.

Lemma moves_pop_snoc g l x :
  moves g = l ++ [x] ->
  moves_pop g = (Return (), mkGame (metadata g) l (result g) (board g) (_pending_white_move g)).
Proof.
  intros Hm. unfold moves_pop, bind, gets, set_moves; cbn. rewrite Hm.
  rewrite removelast_last. by destruct l.
Qed.

Lemma undo_last_move_cases g o g' :
  undo_last_move g = (o, g') ->
  (exists e, o = Raise e /\ g' = g /\ pop (board g) = None) \/
  (o = Return false /\ g' = g /\ _pending_white_move g = None /\ moves g = []) \/
  exists m bd, pop (board g) = Some (m, bd) /\ o = Return true /\
    ((exists p, _pending_white_move g = Some p
        /\ g' = mkGame (metadata g) (moves g) (result g) bd None)
     \/ (exists l w b, _pending_white_move g = None /\ moves g = l ++ [(w, Some b)]
        /\ g' = mkGame (metadata g) l (result g) bd (Some w))
     \/ (exists l w, _pending_white_move g = None /\ moves g = l ++ [(w, None)]
        /\ g' = mkGame (metadata g) l (result g) bd None)).
Proof.
  unfold undo_last_move, board_pop, bind, gets, ret, raise, set_board,
    set_pending, set_moves.
  destruct (_pending_white_move g) as [p|] eqn:Hp; cbn.
  { destruct (pop (board g)) as [[m bd]|] eqn:Hpop; cbn; intros [= <- <-].
    - right; right. exists m, bd. split; [done|]. split; [done|]. left. eauto.
    - left. eauto. }
  destruct (moves g) as [|[w b] l _] eqn:Hm using rev_ind; cbn.
  { intros [= <- <-]. right; left. done. }
  rewrite last_snoc.
  destruct b as [b|]; destruct (pop (board g)) as [[m bd]|] eqn:Hpop; cbn;
    try (intros [= <- <-]; left; eauto; fail).
  - rewrite length_app, Nat.add_comm. cbn.
    rewrite insert_app_r_alt, Nat.sub_diag by lia. cbn.
    erewrite moves_pop_snoc by reflexivity. cbn.
    intros [= <- <-]. right; right. exists m, bd. split; [done|]. split; [done|].
    right; left. exists l, w, b. done.
  - erewrite moves_pop_snoc by (cbn; exact Hm). cbn. rewrite Hp.
    intros [= <- <-]. right; right. exists m, bd. split; [done|]. split; [done|].
    right; right. exists l, w. done.
Qed.

(** A refused move leaves the session alone, except when it is a black
    move refused for want of a pending white move. *)
Lemma rejected_move_keeps_session g g' (san color msg : string) :
  validate_and_add_move san color g = (Return (false, msg), g') ->
  color = "white" \/ is_Some (_pending_white_move g) ->
  g' = g.
Proof.
  intros [(msg' & _ & ->)|(m & _ & _ &
            [(_ & [=] & _)|[(_ & w & _ & [=] & _)|(Hc & Hp & _ & _)]])]%validate_and_add_move_cases
    [Hw|[w' Hw]]; congruence.
Qed.

(** [edit_move] either fails and leaves the session alone, or replaces
    one record, replays all records on a new board and installs both. *)
Lemma edit_move_cases g g' (n : Z) (color san : string) o :
  edit_move n color san g = (o, g') ->
  (exists msg, o = Return (false, msg) /\ g' = g) \/
  exists idx w b temp_moves temp_board,
    moves g !! idx = Some (w, b)
    /\ temp_moves = (if String.eqb color "white"
                     then <[idx := (san, b)]> (moves g)
                     else <[idx := (w, Some san)]> (moves g))
    /\ replay new_board temp_moves = inr temp_board
    /\ o = Return (true, "Move updated successfully")
    /\ g' = mkGame (metadata g) temp_moves (result g) temp_board
                   (_pending_white_move g).
Proof.
  unfold edit_move.
  destruct (MoveValidator.validate_move san) as [ok err].
  destruct ok; cbn [negb]; unfold bind, gets, ret, raise; cbn.
  2:{ intros [= <- <-]. left; eauto. }
  destruct (_ || _)%bool eqn:Hrange.
  { intros [= <- <-]. left; eauto. }
  apply orb_false_iff in Hrange as [H1 H2].
  apply Z.ltb_ge in H1, H2.
  destruct (moves g !! Z.to_nat (n - 1)) as [[w b]|] eqn:Hlk.
  2:{ apply lookup_ge_None in Hlk. lia. }
  destruct (_ && _)%bool.
  { intros [= <- <-]. left; eauto. }
  destruct (replay _ _) as [e|tb] eqn:Hrep.
  { intros [= <- <-]. left; eauto. }
  unfold set_moves, set_board; cbn. intros [= <- <-].
  right. eexists (Z.to_nat (n - 1)), w, b, _, tb. by repeat split.
Qed.

End SessionLemmas.

(** ** The stack of the board covers the recorded moves *)

Section SessionInvariant.
Context {Position Move : Type} {R : Rules Position Move}.
#[local] Abbreviation Board := (Board Position Move).
#[local] Abbreviation ChessGame := (ChessGame Position Move).
Implicit Types g : ChessGame.

Lemma finalize_pending_move_cases g :
  finalize_pending_move g =
    (Return (),
     match _pending_white_move g with
     | Some w => mkGame (metadata g) (moves g ++ [(w, None)]) (result g) (board g) None
     | None => g
     end).
Proof.
  unfold finalize_pending_move, add_move, bind, gets, ret, set_moves, set_pending.
  by destruct (_pending_white_move g).
Qed.

Lemma set_result_cases res g :
  set_result res g =
    if existsb (String.eqb res) valid_results
    then (Return (), mkGame (<["Result" := res]> (metadata g)) (moves g) res
                            (board g) (_pending_white_move g))
    else (Raise (ValueError ("Invalid result: " +:+ res +:+
                   ". Must be one of ['1-0', '0-1', '1/2-1/2', '*']")), g).
Proof.
  unfold set_result. by destruct (existsb _ _).
Qed.

Lemma validate_move_accepts_nonempty san :
  fst (MoveValidator.validate_move san) = true -> san <> "".
Proof. by intros H ->. Qed.

Lemma plies_cons (r : string * option string) ms :
  plies (r :: ms) = (S (length (option_list r.2)) + plies ms)%nat.
Proof. unfold plies, sans_of. cbn. by rewrite length_app. Qed.

Lemma plies_singleton (r : string * option string) :
  plies [r] = S (length (option_list r.2)).
Proof. unfold plies, sans_of. cbn. by rewrite app_nil_r. Qed.

Lemma plies_app (ms ms' : list (string * option string)) :
  plies (ms ++ ms') = (plies ms + plies ms')%nat.
Proof. unfold plies, sans_of. by rewrite flat_map_app, length_app. Qed.

Lemma push_san_stack (b b' : Board) san :
  push_san b san = inr b' -> length (move_stack b') = S (length (move_stack b)).
Proof.
  unfold push_san. destruct (parse_san _ _); [done|]. by intros [= <-].
Qed.

Local Arguments plies : simpl never.

(** The replay of [edit_move] pushes one move per recorded half-move. *)
Lemma replay_stack ms : forall b b' : Board,
  replay b ms = inr b' ->
  (forall w bm, (w, Some bm) ∈ ms -> bm <> "") ->
  length (move_stack b') = (length (move_stack b) + plies ms)%nat.
Proof.
  induction ms as [|[w bm] ms IH]; intros b b' Hrep Hne.
  { injection Hrep as <-. unfold plies. cbn. lia. }
  rewrite plies_cons. cbn in Hrep |- *.
  destruct (push_san b w) as [e|b1] eqn:H1; [done|].
  apply push_san_stack in H1.
  assert (Hne' : forall w' bm', (w', Some bm') ∈ ms -> bm' <> "").
  { intros w' bm' Hin. apply (Hne w'). by right. }
  destruct bm as [[|c bm]|]; cbn in Hrep |- *.
  - exfalso. apply (Hne w ""); [left|done].
  - destruct (push_san b1 _) as [e|b2] eqn:H2; [done|].
    apply push_san_stack in H2. rewrite (IH _ _ Hrep Hne'). lia.
  - rewrite (IH _ _ Hrep Hne'). lia.
Qed.

Lemma stack_covers_init md : stack_covers (__init__ md).
Proof. split; [unfold plies; cbn; lia|]. cbn. intros w b Hin. by apply elem_of_nil in Hin. Qed.

Lemma pop_stack (b bd : Board) m :
  pop b = Some (m, bd) -> length (move_stack b) = S (length (move_stack bd)).
Proof.
  unfold pop. destruct (move_stack b) as [|[p m'] rest] eqn:Hs; [done|].
  by intros [= _ <-].
Qed.

Lemma stack_covers_step g g' op o :
  stack_covers g -> run_op op g = (o, g') -> stack_covers g'.
Proof.
  intros [Hlen Hne] Hrun. destruct op as [san color| |n color san| |res]; cbn in Hrun.
  - unfold bind in Hrun.
    destruct (validate_and_add_move san color g) as [o1 g1] eqn:Hv.
    assert (g1 = g') as -> by (destruct o1; by injection Hrun).
    apply validate_and_add_move_cases in Hv
      as [(msg & _ & ->)|(m & Hok & _ & [(_ & _ & ->)|[(_ & w & Hp & _ & ->)|(_ & Hp & _ & ->)]])];
      [done|split; cbn..].
    + destruct (_pending_white_move g); cbn in *; lia.
    + done.
    + rewrite Hp in Hlen. rewrite plies_app. rewrite plies_singleton. cbn in *. lia.
    + intros w' b' [Hin|Hin]%elem_of_app; [by eapply Hne|].
      apply list_elem_of_singleton in Hin as [= _ ->].
      by apply validate_move_accepts_nonempty.
    + rewrite Hp in Hlen. cbn in *. lia.
    + done.
  - unfold bind in Hrun.
    destruct (undo_last_move g) as [o1 g1] eqn:Hu.
    assert (g1 = g') as -> by (destruct o1; by injection Hrun).
    apply undo_last_move_cases in Hu
      as [(e & _ & -> & _)|[(_ & -> & _)|(m & bd & Hpop%pop_stack & _ &
            [(p & Hp & ->)|[(l & w & b & Hp & Hm & ->)|(l & w & Hp & Hm & ->)]])]];
      [done|done|split; cbn..].
    + rewrite Hp in Hlen. cbn in *. lia.
    + done.
    + rewrite Hp, Hm, plies_app in Hlen. rewrite plies_singleton in Hlen. cbn in *. lia.
    + intros w' b' Hin. apply (Hne w'). rewrite Hm. apply elem_of_app. by left.
    + rewrite Hp, Hm, plies_app in Hlen. rewrite plies_singleton in Hlen. cbn in *. lia.
    + intros w' b' Hin. apply (Hne w'). rewrite Hm. apply elem_of_app. by left.
  - unfold bind in Hrun.
    destruct (edit_move n color san g) as [o1 g1] eqn:He.
    assert (g1 = g') as -> by (destruct o1; by injection Hrun).
    clear Hrun. revert He. unfold edit_move.
    destruct (MoveValidator.validate_move san) as [ok err] eqn:Hv.
    destruct ok; cbn [negb]; unfold bind, gets, ret, raise; cbn;
      [|by intros [= _ <-]].
    destruct (_ || _)%bool; [by intros [= _ <-]|].
    destruct (moves g !! Z.to_nat (n - 1)) as [[w b]|] eqn:Hlk; [|by intros [= _ <-]].
    destruct (_ && _)%bool eqn:Hblack; [by intros [= _ <-]|].
    destruct (replay _ _) as [e|tb] eqn:Hrep; [by intros [= _ <-]|].
    unfold set_moves, set_board; cbn. intros [= _ <-]. cbn.
    assert (Hne' : forall w' b',
      (w', Some b') ∈ (if String.eqb color "white"
                       then <[Z.to_nat (n - 1) := (san, b)]> (moves g)
                       else <[Z.to_nat (n - 1) := (w, Some san)]> (moves g)) -> b' <> "").
    { assert (Hsan : san <> "") by (apply validate_move_accepts_nonempty; by rewrite Hv).
      intros w' b' Hin.
      destruct (String.eqb color "white");
        apply list_elem_of_lookup in Hin as [i Hi];
        (destruct (decide (i = Z.to_nat (n - 1))) as [->|Hneq];
         [rewrite list_lookup_insert_eq in Hi by (by eapply lookup_lt_Some);
          injection Hi as <- Hb
         |rewrite list_lookup_insert_ne in Hi by done;
          apply (Hne w'), list_elem_of_lookup; eauto]).
      - apply (Hne w). subst b. apply list_elem_of_lookup; eauto.
      - congruence. }
    split; [|done]. cbn.
    rewrite (replay_stack _ _ _ Hrep Hne'). cbn.
    destruct (_pending_white_move g); cbn; lia.
  - unfold bind in Hrun. rewrite finalize_pending_move_cases in Hrun. cbn in Hrun.
    injection Hrun as _ <-.
    destruct (_pending_white_move g) as [w|] eqn:Hp.
    2:{ split; [by rewrite Hp|done]. }
    split; cbn.
    + rewrite plies_app. rewrite plies_singleton. cbn in *. lia.
    + intros w' b' [Hin|Hin]%elem_of_app; [by eapply Hne|].
      by apply list_elem_of_singleton in Hin.
  - unfold bind in Hrun. rewrite set_result_cases in Hrun.
    destruct (existsb _ _); cbn in Hrun; by injection Hrun as _ <-.
Qed.

Lemma reachable_stack_covers g : reachable g -> stack_covers g.
Proof.
  induction 1 as [md|g g' op o _ IH Hrun].
  - apply stack_covers_init.
  - by eapply stack_covers_step.
Qed.

End SessionInvariant.
(** ** Board and history in step *)

Section Sync.
Context {Position Move : Type} {R : Rules Position Move}.
#[local] Abbreviation Board := (Board Position Move).
#[local] Abbreviation ChessGame := (ChessGame Position Move).
Implicit Types g : ChessGame.

Lemma synced_consistent g : synced g -> consistent g.
Proof. intros H. by exists (board g). Qed.

Lemma play_sans_app (b : Board) (l1 l2 : list string) :
  play_sans b (l1 ++ l2) =
    match play_sans b l1 with
    | inl e => inl e
    | inr b1 => play_sans b1 l2
    end.
Proof.
  revert b. induction l1 as [|san l1 IH]; intros b; cbn; [done|].
  destruct (push_san b san); [done|]. apply IH.
Qed.

(** Replaying a list that ends in [san] pushes [san] last. *)
Lemma play_sans_snoc (b b' : Board) (l : list string) (san : string) :
  play_sans b (l ++ [san]) = inr b' ->
  exists b0 m, play_sans b l = inr b0 /\ b' = push b0 m.
Proof.
  rewrite play_sans_app. destruct (play_sans b l) as [e|b0]; [done|].
  cbn. unfold push_san. destruct (parse_san _ _) as [e|m]; [done|].
  intros [= <-]. eauto.
Qed.

Lemma pop_push (b : Board) (m : Move) : pop (push b m) = Some (m, b).
Proof. by destruct b. Qed.

Lemma sans_of_app ms ms' : sans_of (ms ++ ms') = sans_of ms ++ sans_of ms'.
Proof. apply flat_map_app. Qed.

(** The replay loop of [edit_move] plays the SAN list of the records, as
    long as no black half is the empty string. *)
Lemma replay_play_sans ms : forall b : Board,
  (forall w bm, (w, Some bm) ∈ ms -> bm <> "") ->
  replay b ms = play_sans b (sans_of ms).
Proof.
  induction ms as [|[w bm] ms IH]; intros b Hne; [done|].
  assert (Hne' : forall w' bm', (w', Some bm') ∈ ms -> bm' <> "").
  { intros w' bm' Hin. apply (Hne w'). by right. }
  cbn. destruct (push_san b w) as [e|b1]; [done|].
  destruct bm as [[|c bm]|]; cbn.
  - exfalso. apply (Hne w ""); [left|done].
  - destruct (push_san b1 _); [done|]. by apply IH.
  - by apply IH.
Qed.

(** Where C1 does hold: a call that returns success keeps board and
    history in step, provided an edit is not made while a white move is
    pending and a white move does not replace a pending one. *)
Local Arguments recorded_sans : simpl never.

Lemma recorded_sans_eq (md : gmap string string) ms res (b : Board) p :
  recorded_sans (mkGame md ms res b p) = sans_of ms ++ option_list p.
Proof. done. Qed.

Lemma sans_of_snoc ms w (bm : option string) :
  sans_of (ms ++ [(w, bm)]) = (sans_of ms ++ [w]) ++ option_list bm.
Proof. rewrite sans_of_app. cbn. by rewrite app_nil_r, <- app_assoc. Qed.

Lemma play_sans_push (b b0 : Board) l san m :
  play_sans b l = inr b0 -> parse_san (position b0) san = inr m ->
  play_sans b (l ++ [san]) = inr (push b0 m).
Proof.
  intros Hl Hp. rewrite play_sans_app, Hl. cbn. unfold push_san. by rewrite Hp.
Qed.

Lemma play_sans_pop (b b' bd : Board) l san m :
  play_sans b (l ++ [san]) = inr b' -> pop b' = Some (m, bd) ->
  play_sans b l = inr bd.
Proof.
  intros (b0 & m0 & Hplay & ->)%play_sans_snoc. rewrite pop_push.
  by intros [= _ <-].
Qed.

(** Where C1 does hold: a call that returns success keeps board and
    history in step, provided an edit is not made while a white move is
    pending and a white move does not replace a pending one. *)
Lemma synced_step g g' op o :
  synced g -> stack_covers g ->
  run_op op g = (o, g') -> succeeded o = true ->
  match op with
  | Edit _ _ _ => _pending_white_move g = None
  | Propose _ color => color = "white" -> _pending_white_move g = None
  | _ => True
  end ->
  synced g'.
Proof.
  unfold synced. intros Hsync Hcov Hrun Hok Hside.
  pose proof (stack_covers_step _ _ _ _ Hcov Hrun) as [_ Hne'].
  destruct g as [md ms res b p]. rewrite recorded_sans_eq in Hsync. cbn in *.
  destruct op as [san color| |n color san| |res']; cbn in Hrun; unfold bind in Hrun.
  - destruct (validate_and_add_move san color _) as [o1 g1] eqn:Hv.
    apply validate_and_add_move_cases in Hv
      as [(msg & -> & ->)|(m & _ & Hparse &
            [(Hc & -> & ->)|[(Hc & w & Hp & -> & ->)|(_ & _ & -> & ->)]])];
      cbn in *; injection Hrun as <- <-; cbn in Hok; try done;
      rewrite recorded_sans_eq; cbn.
    + rewrite (Hside Hc) in Hsync. cbn in Hsync. rewrite app_nil_r in Hsync.
      by apply play_sans_push.
    + subst p. cbn in Hsync. rewrite app_nil_r, sans_of_snoc. cbn.
      by apply play_sans_push.
  - destruct (undo_last_move _) as [o1 g1] eqn:Hu.
    apply undo_last_move_cases in Hu
      as [(e & -> & -> & _)|[(-> & -> & _)|(m & bd & Hpop & -> &
            [(p' & Hp & ->)|[(l & w & bm & Hp & Hm & ->)|(l & w & Hp & Hm & ->)]])]];
      cbn in *; injection Hrun as <- <-; cbn in Hok; try done;
      rewrite recorded_sans_eq; subst; cbn in *.
    + rewrite app_nil_r. by eapply play_sans_pop.
    + rewrite app_nil_r, sans_of_snoc in Hsync. by eapply play_sans_pop.
    + rewrite app_nil_r, sans_of_snoc in Hsync. cbn in Hsync.
      rewrite app_nil_r in *. by eapply play_sans_pop.
  - destruct (edit_move n color san _) as [o1 g1] eqn:He.
    apply edit_move_cases in He
      as [(msg & -> & ->)|(idx & w & bm & tm & tb & _ & _ & Hrep & -> & ->)];
      cbn in *; injection Hrun as <- <-; [done|].
    subst p. rewrite recorded_sans_eq. cbn [option_list]. rewrite app_nil_r.
    by rewrite <- replay_play_sans.
  - rewrite finalize_pending_move_cases in Hrun. cbn in Hrun.
    injection Hrun as <- <-.
    destruct p as [w|]; cbn in *; rewrite recorded_sans_eq; [|done].
    rewrite sans_of_snoc. cbn. by rewrite !app_nil_r.
  - rewrite set_result_cases in Hrun.
    destruct (existsb _ _); cbn in Hrun; by injection Hrun as <- <-.
Qed.

Lemma synced_init (md : gmap string string) : synced (__init__ md).
Proof. done. Qed.


Lemma validate_and_add_move_turn g g' san color msg :
  validate_and_add_move san color g = (Return (true, msg), g') ->
  turn (position (board g)) = String.eqb color "white".
Proof.
  unfold validate_and_add_move.
  destruct (MoveValidator.validate_move san) as [ok err].
  destruct ok; cbn [negb]; unfold bind, gets, ret; cbn; [|done].
  destruct (turn (position (board g))), (String.eqb color "white"); cbn; done.
Qed.

Lemma all_complete_sans ms : all_complete ms -> length (sans_of ms) = 2 * length ms.
Proof.
  unfold sans_of. induction 1 as [|[w b] ms [bm Hb] _ IH]; [done|].
  cbn in Hb. subst b. cbn. rewrite IH. lia.
Qed.

Lemma all_complete_only_last ms : all_complete ms -> only_last_incomplete ms.
Proof.
  intros Hall i w Hi. exfalso.
  apply (Forall_lookup_1 _ _ _ _ Hall) in Hi. by destruct Hi.
Qed.

Lemma only_last_incomplete_inv ms :
  only_last_incomplete ms ->
  all_complete ms \/ exists l w, ms = l ++ [(w, None)] /\ all_complete l.
Proof.
  destruct ms as [|[w b] l _] using rev_ind; [by left; constructor|].
  intros Honly.
  assert (Hl : all_complete l).
  { apply Forall_lookup_2. intros i [w' [b'|]] Hi; [by eexists|].
    exfalso. pose proof (lookup_lt_Some _ _ _ Hi) as Hlt.
    specialize (Honly i w'). rewrite lookup_app_l, length_app in Honly by done.
    cbn in Honly. specialize (Honly Hi). lia. }
  destruct b as [b|].
  - left. apply Forall_app. split; [done|]. constructor; [by eexists|constructor].
  - right. eauto.
Qed.

End Sync.

(** ** Where the history invariants do hold

    On an engine whose turns alternate from White's first move, calls
    that all return success keep board and history in step and keep an
    incomplete record last, as long as no edit is made while a white move
    is pending. *)

Section Discipline.
Context {Position Move : Type} {R : Rules Position Move}.
#[local] Abbreviation Board := (Board Position Move).
#[local] Abbreviation ChessGame := (ChessGame Position Move).
Implicit Types g : ChessGame.

Hypothesis white_starts : turn (starting : Position) = WHITE.
Hypothesis turn_alternates :
  forall (p : Position) (m : Move), turn (play p m) = negb (turn p).

Lemma play_sans_turn (l : list string) : forall b0 b : Board,
  play_sans b0 l = inr b ->
  turn (position b) =
    if Nat.even (length l) then turn (position b0) else negb (turn (position b0)).
Proof.
  induction l as [|san l IH]; intros b0 b; [by intros [= <-]|].
  cbn [play_sans]. unfold push_san.
  destruct (parse_san _ _) as [e|m]; [done|]. intros Hplay.
  rewrite (IH _ _ Hplay). cbn [push position length].
  rewrite turn_alternates, Nat.even_succ, <- Nat.negb_even.
  by destruct (Nat.even (length l)), (turn (position b0)).
Qed.

(** With White to move, nothing is pending and every record is complete. *)
Lemma white_to_move_all_paired g :
  orderly g -> turn (position (board g)) = WHITE ->
  _pending_white_move g = None /\ all_complete (moves g).
Proof.
  intros (Hsync & _ & Hpair) Hturn.
  assert (Heven : exists k, length (recorded_sans g) = 2 * k).
  { apply play_sans_turn in Hsync. cbn [new_board position] in Hsync.
    rewrite white_starts, Hturn in Hsync.
    apply Nat.even_spec. by destruct (Nat.even _). }
  destruct Heven as [k Hk]. unfold recorded_sans in Hk. rewrite length_app in Hk.
  destruct (_pending_white_move g) as [w|]; cbn in Hk.
  - exfalso. rewrite (all_complete_sans _ Hpair) in Hk. lia.
  - split; [done|].
    destruct (only_last_incomplete_inv _ Hpair) as [Hall|(l & w & Hm & Hall)]; [done|].
    exfalso. rewrite Hm in Hk. unfold sans_of in Hk.
    rewrite flat_map_app, length_app in Hk. fold (sans_of l) in Hk.
    rewrite (all_complete_sans _ Hall) in Hk. cbn in Hk. lia.
Qed.

Lemma only_last_incomplete_snoc ms (r : string * option string) :
  all_complete ms -> only_last_incomplete (ms ++ [r]).
Proof.
  intros Hall i w Hi. rewrite length_app, Nat.add_comm. cbn.
  destruct (decide (i < length ms)) as [Hlt|Hge].
  - rewrite lookup_app_l in Hi by done.
    apply (Forall_lookup_1 _ _ _ _ Hall) in Hi. by destruct Hi.
  - pose proof (lookup_lt_Some _ _ _ Hi) as Hlt.
    rewrite length_app in Hlt. cbn in Hlt. lia.
Qed.

Lemma only_last_incomplete_init ms (r : string * option string) :
  only_last_incomplete (ms ++ [r]) -> all_complete ms.
Proof.
  intros Honly. apply Forall_lookup_2. intros i [w [b|]] Hi; [by eexists|].
  exfalso. pose proof (lookup_lt_Some _ _ _ Hi) as Hlt.
  specialize (Honly i w). rewrite lookup_app_l, length_app in Honly by done.
  cbn in Honly. specialize (Honly Hi). lia.
Qed.

(** One successful call keeps the session orderly, unless it is an edit
    made while a white move is pending. *)
Lemma orderly_step g g' op o :
  orderly g -> run_op op g = (o, g') -> succeeded o = true ->
  match op with
  | Edit _ _ _ => _pending_white_move g = None
  | _ => True
  end ->
  orderly g'.
Proof.
  intros Hord Hrun Hok Hedit. pose proof Hord as (Hsync & Hcov & Hpair).
  assert (Hwhite : forall san msg g1,
            validate_and_add_move san "white" g = (Return (true, msg), g1) ->
            _pending_white_move g = None /\ all_complete (moves g)).
  { intros san msg g1 Hv. apply validate_and_add_move_turn in Hv.
    by apply white_to_move_all_paired. }
  split; [|split; [by eapply stack_covers_step|]].
  { eapply synced_step; try done.
    destruct op as [san color| | | |]; try done. intros ->.
    cbn in Hrun. unfold bind in Hrun.
    destruct (validate_and_add_move san "white" g) as [[[[|] msg]|e] g1] eqn:Hv;
      cbn in Hrun; injection Hrun as <- <-; try done.
    by destruct (Hwhite _ _ _ Hv). }
  destruct op as [san color| |n color san| |res]; cbn in Hrun; unfold bind in Hrun.
  - destruct (validate_and_add_move san color g) as [o1 g1] eqn:Hv.
    pose proof Hv as Hcases.
    apply validate_and_add_move_cases in Hcases
      as [(msg & -> & ->)|(m & _ & _ &
            [(-> & -> & ->)|[(Hc & w & Hp & -> & ->)|(_ & _ & -> & ->)]])];
      cbn in Hrun; injection Hrun as <- <-; cbn in Hok |- *; try done.
    + by destruct (Hwhite _ _ _ Hv).
    + rewrite Hp in Hpair. by apply only_last_incomplete_snoc.
  - destruct (undo_last_move g) as [o1 g1] eqn:Hu.
    apply undo_last_move_cases in Hu
      as [(e & -> & -> & _)|[(-> & -> & _)|(m & bd & _ & -> &
            [(p & Hp & ->)|[(l & w & b & Hp & Hm & ->)|(l & w & Hp & Hm & ->)]])]];
      cbn in Hrun; injection Hrun as <- <-; cbn in Hok |- *; try done.
    + rewrite Hp in Hpair. by apply all_complete_only_last.
    + rewrite Hp, Hm in Hpair. by eapply only_last_incomplete_init.
    + rewrite Hp, Hm in Hpair.
      by eapply all_complete_only_last, only_last_incomplete_init.
  - destruct (edit_move n color san g) as [o1 g1] eqn:He.
    apply edit_move_cases in He
      as [(msg & -> & ->)|(idx & w & b & tm & tb & Hlk & Htm & _ & -> & ->)];
      cbn in Hrun; injection Hrun as <- <-; [done|].
    cbn. rewrite Hedit. rewrite Hedit in Hpair.
    pose proof (lookup_lt_Some _ _ _ Hlk) as Hlt.
    assert (Hlen : length tm = length (moves g)).
    { subst tm. destruct (String.eqb color "white"); by rewrite length_insert. }
    intros i w' Hi. rewrite Hlen.
    destruct (decide (i = idx)) as [->|Hne].
    + subst tm. destruct (String.eqb color "white");
        rewrite list_lookup_insert_eq in Hi by done; injection Hi as _ Hb; [|done].
      subst b. by apply (Hpair idx w).
    + apply (Hpair i w'). subst tm.
      by destruct (String.eqb color "white"); rewrite list_lookup_insert_ne in Hi.
  - rewrite finalize_pending_move_cases in Hrun. cbn in Hrun.
    injection Hrun as <- <-.
    destruct (_pending_white_move g) as [w|] eqn:Hp; cbn; [|by rewrite Hp].
    by apply only_last_incomplete_snoc.
  - rewrite set_result_cases in Hrun.
    destruct (existsb _ _); cbn in Hrun; by injection Hrun as <- <-.
Qed.

Lemma orderly_init (md : gmap string string) : orderly (__init__ md).
Proof.
  split; [done|]. split; [apply stack_covers_init|]. by intros i w Hi.
Qed.

Lemma orderly_run_ops (ops : list Op) : forall g,
  orderly g -> disciplined ops g -> orderly (run_ops ops g).2.
Proof.
  induction ops as [|op ops IH]; intros g Hord Hdisc; [done|].
  cbn in Hdisc |- *. destruct (run_op op g) as [o g1] eqn:Hop.
  destruct Hdisc as (Hok & Hedit & Hrest). cbn in Hok, Hrest.
  specialize (IH g1). destruct (run_ops ops g1) as [os g2]. cbn in IH |- *.
  apply IH; [|done]. by eapply orderly_step.
Qed.

(** Where C1 and C5 do hold: from a fresh session, calls that all return
    success, with no edit made while a white move is pending, leave the
    board showing the replay of the recorded moves and leave at most the
    last record without its black half. *)
Lemma disciplined_calls_keep_history (ops : list Op) (md : gmap string string) :
  disciplined ops (__init__ md) ->
  consistent (run_ops ops (__init__ md)).2
  /\ only_last_incomplete (moves (run_ops ops (__init__ md)).2).
Proof.
  intros Hdisc.
  destruct (orderly_run_ops ops _ (orderly_init md) Hdisc) as (Hsync & _ & Hpair).
  split; [by apply synced_consistent|].
  destruct (_pending_white_move _); [by apply all_complete_only_last|done].
Qed.

End Discipline.

(** ** Claims about the session, over any rules engine *)

Section SessionClaims.
Context {Position Move : Type} {R : Rules Position Move}.
#[local] Abbreviation Board := (Board Position Move).
#[local] Abbreviation ChessGame := (ChessGame Position Move).
Implicit Types g : ChessGame.

Local Arguments plies : simpl never.

(** C3: an [edit_move] that fails leaves the session exactly as it was.
    The call always returns a pair (it never raises); when it returns
    [False] the session is the one before the call; and when it returns
    [True] the replay of the edited records from the starting position ran
    through and produced the new board, with the number of records, the
    metadata, the result and the pending white move kept.  So the session
    changes on the success path only, after the whole replay. *)
Theorem edit_move_atomic (g g' : ChessGame) (n : Z) (color san : string)
    (o : outcome (bool * string)) :
  edit_move n color san g = (o, g') ->
  (exists ok msg, o = Return (ok, msg)) /\
  (forall msg, o = Return (false, msg) -> g' = g) /\
  (forall msg, o = Return (true, msg) ->
     replay new_board (moves g') = inr (board g')
     /\ length (moves g') = length (moves g)
     /\ metadata g' = metadata g /\ result g' = result g
     /\ _pending_white_move g' = _pending_white_move g).
Proof.
  intros [(msg & -> & ->)|(idx & w & b & tm & tb & Hlk & Htm & Hrep & -> & ->)]%edit_move_cases.
  - split; [eauto|]. by split.
  - split; [eauto|]. split; [done|]. intros msg _. cbn.
    split; [done|]. split; [|done]. subst tm.
    destruct (String.eqb color "white"); by rewrite length_insert.
Qed.

(** C4, as amended: when [validate_and_add_move] returns success, and a
    white move did not overwrite a white move that was still pending, the
    following [undo_last_move] returns [True] and gives back the whole
    session: move records, pending white move and board. *)
Theorem undo_inverts_accepted_move g g1 (san color msg : string) :
  validate_and_add_move san color g = (Return (true, msg), g1) ->
  (color = "white" -> _pending_white_move g = None) ->
  undo_last_move g1 = (Return true, g)
  /\ Play.undo_restores g san color.
Proof.
  intros Hv Hpend.
  assert (Hundo : undo_last_move g1 = (Return true, g)).
  { apply validate_and_add_move_cases in Hv
      as [(msg' & [=] & _)|(m & _ & _ &
            [(Hc & _ & ->)|[(_ & w & Hp & _ & ->)|(_ & _ & [=] & _)]])].
    - destruct (undo_last_move _) as [o g2] eqn:Hu.
      apply undo_last_move_cases in Hu
        as [(e & _ & _ & [=])|[(_ & _ & [=] & _)|(m' & bd & [= <- <-] & -> &
              [(p & _ & ->)|[(l & w & b & [=] & _)|(l & w & [=] & _)]])]].
      destruct g as [md ms res [pos stk] pend]; cbn in *. by rewrite Hpend.
    - destruct (undo_last_move _) as [o g2] eqn:Hu.
      apply undo_last_move_cases in Hu
        as [(e & _ & _ & [=])|[(_ & _ & _ & Hnil)|(m' & bd & [= <- <-] & -> &
              [(p & [=] & _)|[(l & w' & b & _ & Hm & ->)|(l & w' & _ & Hm & _)]])]];
        cbn in *.
      + by destruct (moves g).
      + apply app_inj_tail in Hm as [<- [= <- <-]].
        destruct g as [md ms res [pos stk] pend]; cbn in *. by rewrite Hp.
      + by apply app_inj_tail in Hm as [_ [=]]. }
  split; [done|].
  unfold Play.undo_restores. rewrite Hv. cbn [snd]. by rewrite Hundo.
Qed.

(** C7, as amended: [set_result] can be called in any session state.  For
    one of the four result strings it returns normally, having set
    [result] and [metadata["Result"]] and nothing else; for any other
    string it raises [ValueError] and leaves the session as it was. *)
Theorem set_result_returns_or_raises (res : string) g :
  (res ∈ valid_results ->
   set_result res g =
     (Return (), mkGame (<["Result" := res]> (metadata g)) (moves g) res
                        (board g) (_pending_white_move g)))
  /\ (res ∉ valid_results ->
      exists msg, set_result res g = (Raise (ValueError msg), g)).
Proof.
  rewrite set_result_cases.
  destruct (existsb _ _) eqn:Hex.
  - split; [done|]. intros Hnot. exfalso. apply Hnot.
    apply existsb_exists in Hex as (x & Hin & ->%String.eqb_eq).
    by apply list_elem_of_In.
  - split; [|eauto]. intros Hin. exfalso.
    apply list_elem_of_In in Hin.
    assert (existsb (String.eqb res) valid_results = true); [|congruence].
    apply existsb_exists. exists res. split; [done|]. apply String.eqb_refl.
Qed.

(** C10: in every reachable state a pending white half-move lives in
    [_pending_white_move] only.  (1) An accepted white move leaves
    [get_moves_list] and [get_move_count] as they were and becomes the
    pending move.  (2) A call makes the record list longer only by
    completing the pending white move with a black move, or by
    [finalize_pending_move] committing it with no black half; either way
    the pending move is cleared.  (3) Undoing a completed pair returns
    [True], removes the whole last record and makes its white SAN the
    pending move again, with the board popped once. *)
Theorem pending_white_move_not_recorded g :
  reachable g ->
  (forall san msg g',
     validate_and_add_move san "white" g = (Return (true, msg), g') ->
     _pending_white_move g' = Some san
     /\ (get_moves_list g').1 = (get_moves_list g).1
     /\ (get_move_count g').1 = (get_move_count g).1)
  /\ (forall op o g',
        run_op op g = (o, g') ->
        length (moves g) < length (moves g') ->
        exists w, _pending_white_move g = Some w
          /\ _pending_white_move g' = None
          /\ ((exists san color, op = Propose san color /\ color <> "white"
                 /\ o = Return (VTuple (true, ""))
                 /\ moves g' = moves g ++ [(w, Some san)])
              \/ (op = Finalize /\ moves g' = moves g ++ [(w, None)])))
  /\ (forall l w b,
        _pending_white_move g = None ->
        moves g = l ++ [(w, Some b)] ->
        exists m bd, pop (board g) = Some (m, bd)
          /\ undo_last_move g =
               (Return true, mkGame (metadata g) l (result g) bd (Some w))).
Proof.
  intros Hreach. split; [|split].
  - intros san msg g' Hv.
    apply validate_and_add_move_cases in Hv
      as [(msg' & [=] & _)|(m & _ & _ &
            [(_ & _ & ->)|[(Hc & _)|(Hc & _)]])]; done.
  - intros op o g' Hrun Hlt.
    destruct op as [san color| |n color san| |res]; cbn in Hrun; unfold bind in Hrun.
    + destruct (validate_and_add_move san color g) as [o1 g1] eqn:Hv.
      apply validate_and_add_move_cases in Hv
        as [(msg & -> & ->)|(m & _ & _ &
              [(_ & -> & ->)|[(Hc & w & Hp & -> & ->)|(_ & _ & -> & ->)]])];
        cbn in Hrun; injection Hrun as <- <-; cbn in Hlt; try lia.
      exists w. split; [done|]. split; [done|]. left. by exists san, color.
    + destruct (undo_last_move g) as [o1 g1] eqn:Hu.
      assert (g1 = g') as -> by (destruct o1; by injection Hrun).
      apply undo_last_move_cases in Hu
        as [(e & _ & -> & _)|[(_ & -> & _)|(m & bd & _ & _ &
              [(p & Hp & ->)|[(l & w & b & Hp & Hm & ->)|(l & w & Hp & Hm & ->)]])]];
        cbn in Hlt; try rewrite Hm, length_app in Hlt; lia.
    + destruct (edit_move n color san g) as [o1 g1] eqn:He.
      assert (g1 = g') as -> by (destruct o1; by injection Hrun).
      apply edit_move_cases in He
        as [(msg & _ & ->)|(idx & w & b & tm & tb & _ & Htm & _ & _ & ->)]; [lia|].
      cbn in Hlt. subst tm.
      destruct (String.eqb color "white"); rewrite length_insert in Hlt; lia.
    + rewrite finalize_pending_move_cases in Hrun. cbn in Hrun.
      injection Hrun as <- <-.
      destruct (_pending_white_move g) as [w|] eqn:Hp; [|lia].
      exists w. split; [done|]. split; [done|]. by right.
    + rewrite set_result_cases in Hrun.
      destruct (existsb _ _); cbn in Hrun; injection Hrun as <- <-; cbn in Hlt; lia.
  - intros l w b Hp Hm.
    destruct (reachable_stack_covers g Hreach) as [Hlen _].
    rewrite Hp, Hm, plies_app, plies_singleton in Hlen. cbn in Hlen.
    destruct (pop (board g)) as [[m bd]|] eqn:Hpop.
    2:{ unfold pop in Hpop. destruct (move_stack (board g)) as [|[? ?] ?]; [|done].
        cbn in Hlen. lia. }
    exists m, bd. split; [done|].
    destruct (undo_last_move g) as [o g2] eqn:Hu.
    apply undo_last_move_cases in Hu
      as [(e & _ & _ & Hnone)|[(_ & _ & _ & Hnil)|(m' & bd' & Hpop' & -> &
            [(p & Hp' & _)|[(l' & w' & b' & _ & Hm' & ->)|(l' & w' & _ & Hm' & _)]])]].
    + congruence.
    + rewrite Hm in Hnil. by destruct l.
    + congruence.
    + rewrite Hm in Hm'. apply app_inj_tail in Hm' as [<- [= <- <-]]. congruence.
    + rewrite Hm in Hm'. by apply app_inj_tail in Hm' as [_ [=]].
Qed.

End SessionClaims.

(** ** What the five patterns accept *)

Section Shapes.
Import Re MoveValidator.

Lemma append_cons (d : ascii) (a b : string) : String d a +:+ b = String d (a +:+ b).
Proof. reflexivity. Qed.

Lemma append_assoc (a b c : string) : (a +:+ b) +:+ c = a +:+ (b +:+ c).
Proof. induction a as [|d a IH]; [done|]. by rewrite !append_cons, IH. Qed.

Lemma char_in_app c a b :
  Py.char_in c (a +:+ b) = Py.char_in c a || Py.char_in c b.
Proof.
  induction a as [|d a IH]; [done|]. rewrite append_cons. simpl.
  rewrite IH. by rewrite orb_assoc.
Qed.

Lemma all_in_app alpha s t :
  all_in alpha (s +:+ t) = all_in alpha s && all_in alpha t.
Proof.
  induction s as [|c s IH]; [done|]. rewrite append_cons. simpl.
  rewrite IH. by rewrite andb_assoc.
Qed.

Lemma all_in_weaken alpha beta s :
  (forall c, Py.char_in c alpha = true -> Py.char_in c beta = true) ->
  all_in alpha s = true -> all_in beta s = true.
Proof.
  intros Hsub. induction s as [|c s IH]; cbn; [done|].
  intros [Hc Hs]%andb_true_iff. rewrite (Hsub c Hc). by apply IH.
Qed.

Lemma star_cls_consumes chars k s :
  star_cls chars k s = true ->
  exists s1 s2, s = s1 +:+ s2 /\ all_in chars s1 = true /\ k s2 = true.
Proof.
  induction s as [|c s IH]; cbn.
  - rewrite orb_false_r. intros Hk. by exists "", "".
  - intros [Hk|[Hc Hs]%andb_true_iff]%orb_true_iff.
    + by exists "", (String c s).
    + destruct (IH Hs) as (s1 & s2 & -> & Hin & Hk).
      exists (String c s1), s2. simpl. by rewrite Hc, Hin.
Qed.

(** A successful match consumes a prefix made of the pattern's characters
    and hands the rest to the continuation. *)
Lemma matchk_consumes r : forall k s,
  matchk r k s = true ->
  exists s1 s2, s = s1 +:+ s2 /\ all_in (alphabet r) s1 = true /\ k s2 = true.
Proof.
  induction r as [chars|r1 IH1 r2 IH2|r1 IH1|chars]; intros k s; cbn [matchk alphabet].
  - destruct s as [|c s]; [done|]. intros [Hc Hk]%andb_true_iff.
    exists (String c ""), s. cbn. by rewrite Hc.
  - intros H. destruct (IH1 _ _ H) as (s1 & s' & -> & Hin1 & H').
    destruct (IH2 _ _ H') as (s2 & s3 & -> & Hin2 & Hk).
    exists (s1 +:+ s2), s3. split; [by rewrite append_assoc|].
    split; [|done]. rewrite all_in_app. apply andb_true_iff. split.
    + eapply all_in_weaken; [|done]. intros c Hc. rewrite char_in_app, Hc. done.
    + eapply all_in_weaken; [|done]. intros c Hc. rewrite char_in_app, Hc.
      apply orb_true_r.
  - intros [H|Hk]%orb_true_iff; [by apply IH1|]. by exists "", s.
  - apply star_cls_consumes.
Qed.

(** The same for the head of a sequence, keeping the match of the tail. *)
Lemma matchk_seq_head r1 r2 k s :
  matchk (Seq r1 r2) k s = true ->
  exists s1 s', s = s1 +:+ s' /\ all_in (alphabet r1) s1 = true
                /\ matchk r2 k s' = true.
Proof. cbn. apply matchk_consumes. Qed.

Lemma at_dollar_inv s : at_dollar s = true -> s = "" \/ s = Py.nl.
Proof.
  destruct s as [|c [|? ?]]; cbn; [by left| |done].
  intros ->%Ascii.eqb_eq. by right.
Qed.


(** [contains c s] is false when [s] is made of characters other than [c]. *)
Lemma char_in_all_in c alpha s :
  all_in alpha s = true -> Py.char_in c alpha = false -> Py.char_in c s = false.
Proof.
  induction s as [|d s IH]; simpl; [done|].
  intros [Hd Hs]%andb_true_iff Hc. rewrite (IH Hs Hc), orb_false_r.
  destruct (Ascii.eqb_spec c d) as [->|]; [congruence|done].
Qed.

(** A property checked on the characters of [alpha] holds of its members. *)
Lemma all_chars_sound (P : ascii -> bool) alpha c :
  forallb P (list_ascii_of_string alpha) = true ->
  Py.char_in c alpha = true -> P c = true.
Proof.
  induction alpha as [|d alpha IH]; simpl; [done|].
  intros [Hd Hrest]%andb_true_iff [->%Ascii.eqb_eq|Hc]%orb_true_iff; auto.
Qed.

Lemma find_none_all_in (P : ascii -> bool) (lo hi : N) alpha s :
  all_in alpha s = true ->
  forallb (fun c => negb (Py.in_range lo hi c && P c))
          (list_ascii_of_string alpha) = true ->
  List.find P (findall_range lo hi s) = None.
Proof.
  intros Hs Halpha. induction s as [|c s IH]; simpl; [done|].
  simpl in Hs. apply andb_true_iff in Hs as [Hc Hs].
  pose proof (all_chars_sound _ _ _ Halpha Hc) as HP. simpl in HP.
  destruct (Py.in_range lo hi c); simpl in *; [|by apply IH].
  apply negb_true_iff in HP. rewrite HP. by apply IH.
Qed.

(** What a matched move is made of: the pattern's characters and, at the
    very end, possibly a newline. *)
Lemma matches_all_in r s :
  matches r s = true -> all_in (alphabet r +:+ Py.nl) s = true.
Proof.
  intros (s1 & s2 & -> & Hin & Hk)%matchk_consumes.
  rewrite all_in_app. apply andb_true_iff. split.
  - eapply all_in_weaken; [|done]. intros c Hc. by rewrite char_in_app, Hc.
  - apply at_dollar_inv in Hk as [->| ->]; [done|]. simpl.
    rewrite char_in_app. simpl. by rewrite orb_true_r.
Qed.

Lemma search_promo_skip alpha pre p rest :
  all_in alpha pre = true -> Py.char_in "=" alpha = false ->
  Py.in_range 65 90 p = true ->
  search_promo (pre +:+ String "=" (String p rest)) = Some p.
Proof.
  intros Hpre Heq Hp. induction pre as [|c pre IH]; [|rewrite append_cons]; simpl.
  - by rewrite Hp.
  - simpl in Hpre. apply andb_true_iff in Hpre as [Hc Hpre].
    destruct (Ascii.eqb_spec c "=") as [->|_]; [congruence|]. by apply IH.
Qed.

(** A match of the promotion pattern has an [=] followed by one of
    [QRBN], with no [=] before it. *)
Lemma promotion_shape s :
  matches PAWN_PROMOTION s = true ->
  exists p, Py.char_in p "QRBN" = true /\ search_promo s = Some p.
Proof.
  unfold matches, PAWN_PROMOTION.
  intros (s1 & t1 & -> & H1 & H)%matchk_seq_head.
  apply matchk_seq_head in H as (s2 & t2 & -> & H2 & H).
  apply matchk_seq_head in H as (s3 & t3 & -> & H3 & H).
  apply matchk_seq_head in H as (s4 & t4 & -> & H4 & H).
  cbn [matchk] in H.
  destruct t4 as [|e [|p rest]]; [done|by rewrite andb_false_r in H|].
  apply andb_true_iff in H as [He H].
  apply andb_true_iff in H as [Hp _].
  simpl in He. rewrite orb_false_r in He. apply Ascii.eqb_eq in He as ->.
  exists p. split; [done|].
  rewrite <- !append_assoc.
  apply (search_promo_skip "abcdefghx18").
  - rewrite !all_in_app. repeat (apply andb_true_iff; split);
      (eapply all_in_weaken; [|eassumption]); intros c Hc;
      refine (all_chars_sound (fun c => Py.char_in c "abcdefghx18") _ c _ Hc);
      reflexivity.
  - done.
  - apply (all_chars_sound (Py.in_range 65 90) "QRBN" p eq_refl Hp).
Qed.


(** On a move that has one of the five shapes, only the lower-case-piece
    guard decides: the rank, letter and promotion checks all pass. *)
Lemma validate_move_on_shapes (s : string) :
  existsb (fun p => matches p.2 (Py.strip s)) patterns = true ->
  validate_move s =
    if lowercase_piece (Py.strip s) then (false, uppercase_message (Py.strip s))
    else (true, "").
Proof.
  intros Hex. unfold validate_move.
  destruct (Py.strip s) as [|c0 m0] eqn:Hstrip; [done|].
  set (m := String c0 m0) in *.
  destruct (lowercase_piece m); [done|].
  pose proof Hex as Hsome.
  apply existsb_exists in Hsome as ([name r] & Hin & Hm). simpl in Hm.
  pose proof (matches_all_in r m Hm) as Hall.
  assert (Hrank : bad_rank m = None).
  { unfold bad_rank. apply (find_none_all_in _ _ _ _ _ Hall).
    simpl in Hin. by destruct Hin as [[= <- <-]|[[= <- <-]|[[= <- <-]|[[= <- <-]|[[= <- <-]|[]]]]]]. }
  assert (Hletter : bad_letter m = None).
  { unfold bad_letter. apply (find_none_all_in _ _ _ _ _ Hall).
    simpl in Hin. by destruct Hin as [[= <- <-]|[[= <- <-]|[[= <- <-]|[[= <- <-]|[[= <- <-]|[]]]]]]. }
  assert (Hpromo : promotion_error m = None).
  { unfold promotion_error, contains.
    destruct (Py.char_in "=" m) eqn:Heq; [|done].
    assert (Hr : r = PAWN_PROMOTION).
    { simpl in Hin.
      destruct Hin as [[= <- <-]|[[= <- <-]|[[= <- <-]|[[= <- <-]|[[= <- <-]|[]]]]]];
        try done; by rewrite (char_in_all_in "=" _ m Hall eq_refl) in Heq. }
    subst r. destruct (promotion_shape m Hm) as (p & Hp & ->). by rewrite Hp. }
  by rewrite Hrank, Hletter, Hpromo, Hex.
Qed.

(** Among the moves that have one of the five shapes, the guard catches
    only moves that start with the file letter [b]. *)
Lemma lowercase_piece_on_shapes (m : string) :
  existsb (fun p => matches p.2 m) patterns = true ->
  lowercase_piece m = true ->
  exists rest, m = String "b" rest.
Proof.
  intros Hex Hlow.
  destruct m as [|c rest]; [done|].
  unfold lowercase_piece in Hlow. apply andb_true_iff in Hlow as [Hc _].
  assert (Hfirst : Py.char_in c "OabcdefghKQRBN" = true).
  { apply existsb_exists in Hex as ([name r] & Hin & Hm). simpl in Hin, Hm.
    unfold matches in Hm.
    destruct Hin as [[= <- <-]|[[= <- <-]|[[= <- <-]|[[= <- <-]|[[= <- <-]|[]]]]]];
      cbn [matchk CASTLING PAWN_PROMOTION PAWN_CAPTURE PAWN_MOVE PIECE_MOVE] in Hm.
    - apply andb_true_iff in Hm as [Hm _]. simpl in Hm |- *.
      rewrite orb_false_r in Hm. by rewrite Hm.
    - apply orb_true_iff in Hm as [Hm|Hm].
      + apply andb_true_iff in Hm as [Hm _].
        refine (all_chars_sound (fun c => Py.char_in c "OabcdefghKQRBN") _ c _ Hm).
        reflexivity.
      + apply orb_true_iff in Hm as [Hm|Hm].
        * apply andb_true_iff in Hm as [Hm _]. simpl in Hm.
          rewrite orb_false_r in Hm. apply Ascii.eqb_eq in Hm as ->. done.
        * apply andb_true_iff in Hm as [Hm _].
          refine (all_chars_sound (fun c => Py.char_in c "OabcdefghKQRBN") _ c _ Hm).
          reflexivity.
    - apply andb_true_iff in Hm as [Hm _].
      refine (all_chars_sound (fun c => Py.char_in c "OabcdefghKQRBN") _ c _ Hm).
      reflexivity.
    - apply andb_true_iff in Hm as [Hm _].
      refine (all_chars_sound (fun c => Py.char_in c "OabcdefghKQRBN") _ c _ Hm).
      reflexivity.
    - apply andb_true_iff in Hm as [Hm _].
      refine (all_chars_sound (fun c => Py.char_in c "OabcdefghKQRBN") _ c _ Hm).
      reflexivity. }
  assert (c = "b"%char) as ->.
  { simpl in Hc, Hfirst.
    repeat match type of Hc with
    | (Ascii.eqb c ?x || _)%bool = true =>
        destruct (Ascii.eqb_spec c x) as [->|_]; [by (done || (simpl in Hfirst; discriminate))|];
        simpl in Hc
    end. done. }
  by exists rest.
Qed.

End Shapes.

(** ** Claims about the validator *)

Section ValidatorClaims.
Import MoveValidator.

(** C8: a move whose first character (after stripping) is one of the
    lower-case piece letters [k], [q], [r], [n], and which is not a bare
    letter-and-rank pair, is rejected with the message that names the same
    move with the letter in upper case; for [nf3] the message names [Nf3]. *)
Theorem lowercase_piece_names_correction (move : string) (c : ascii) (rest : string) :
  Py.strip move = String c rest ->
  Py.char_in c "kqrn" = true ->
  (forall d, rest = String d "" -> Py.char_in d "12345678" = false) ->
  validate_move "nf3" =
    (false, "Piece notation must be uppercase (use 'Nf3' instead of 'nf3')")
  /\ exists C : ascii,
       (c, C) ∈ [("k", "K"); ("q", "Q"); ("r", "R"); ("n", "N")]%char
       /\ validate_move move =
            (false, "Piece notation must be uppercase (use '" +:+ String C rest
                    +:+ "' instead of '" +:+ String c rest +:+ "')").
Proof.
  intros Hstrip Hc Hbare. split; [reflexivity|].
  assert (Hlow : lowercase_piece (String c rest) = true).
  { unfold lowercase_piece.
    assert (Py.char_in c "kqrbn" = true) as ->.
    { cbn in Hc |- *.
      by destruct (c =? "k")%char, (c =? "q")%char, (c =? "r")%char, (c =? "n")%char,
                  (c =? "b")%char. }
    destruct rest as [|d [|? ?]]; [done| |done].
    unfold ranks. by rewrite (Hbare d eq_refl). }
  unfold validate_move. rewrite Hstrip, Hlow. unfold uppercase_message.
  cbn in Hc.
  destruct (Ascii.eqb_spec c "k") as [->|_]; [exists "K"%char; split; [set_solver|done]|].
  destruct (Ascii.eqb_spec c "q") as [->|_]; [exists "Q"%char; split; [set_solver|done]|].
  destruct (Ascii.eqb_spec c "r") as [->|_]; [exists "R"%char; split; [set_solver|done]|].
  destruct (Ascii.eqb_spec c "n") as [->|_]; [exists "N"%char; split; [set_solver|done]|].
  done.
Qed.

Lemma lowercase_piece_names_correction_witness :
  Py.strip " nf3 " = String "n" "f3"
  /\ exists C : ascii,
       ("n"%char, C) ∈ [("k", "K"); ("q", "Q"); ("r", "R"); ("n", "N")]%char
       /\ validate_move " nf3 " =
            (false, "Piece notation must be uppercase (use '" +:+ String C "f3"
                    +:+ "' instead of '" +:+ String "n" "f3" +:+ "')").
Proof.
  split; [reflexivity|].
  apply (lowercase_piece_names_correction " nf3 " "n" "f3");
    [reflexivity|reflexivity|intros d [=]].
Defined.

(** C6, at the inputs where the code departs from it: [bxc5] has the
    pawn-capture shape, [b8=Q] the promotion shape and [b4+] the pawn-move
    shape, yet [validate_move] rejects each of them as a lower-case bishop
    before any pattern is tried.  Every other move of the five shapes is
    accepted: a move with one of the shapes is either accepted or starts
    with the file letter [b] and is rejected by that guard. *)
Theorem b_file_pawn_moves_rejected :
  (Re.matches PAWN_CAPTURE "bxc5" = true
   /\ validate_move "bxc5" =
        (false, "Piece notation must be uppercase (use 'Bxc5' instead of 'bxc5')"))
  /\ (Re.matches PAWN_PROMOTION "b8=Q" = true
      /\ validate_move "b8=Q" =
           (false, "Piece notation must be uppercase (use 'B8=Q' instead of 'b8=Q')"))
  /\ (Re.matches PAWN_MOVE "b4+" = true
      /\ validate_move "b4+" =
           (false, "Piece notation must be uppercase (use 'B4+' instead of 'b4+')"))
  /\ validate_move "cxb5" = (true, "") /\ validate_move "b4" = (true, "")
  /\ forall s : string,
       existsb (fun p => Re.matches p.2 (Py.strip s)) patterns = true ->
       validate_move s = (true, "")
       \/ exists rest, Py.strip s = String "b" rest
            /\ validate_move s = (false, uppercase_message (Py.strip s)).
Proof.
  repeat (split; [repeat split; reflexivity|]).
  intros s Hex. rewrite (validate_move_on_shapes s Hex).
  destruct (lowercase_piece (Py.strip s)) eqn:Hlow; [right|by left].
  destruct (lowercase_piece_on_shapes _ Hex Hlow) as [rest Hrest]. eauto.
Qed.

End ValidatorClaims.

(** ** Claims about the exporter *)

Section ExporterClaims.
Import PGNExporter.

Lemma move_line_contract (i : nat) (w : string) (b : option string) :
  move_line i w b = contract_line i (drop_empty_black (w, b)).
Proof. by destruct b as [[|c b]|]. Qed.

(** The loop of [format_moves] numbers the records from its start index
    and appends one line for each. *)
Lemma append_lines_contract (moves : list (string * option string)) :
  forall (lines : list string) (i : nat),
    append_lines lines i moves =
      lines ++ imap (fun j r => contract_line (i + j) r) (map drop_empty_black moves).
Proof.
  induction moves as [|[w b] moves IH]; intros lines i; cbn.
  { by rewrite app_nil_r. }
  rewrite IH, <- app_assoc, move_line_contract, Nat.add_0_r. cbn.
  do 2 f_equal. apply imap_ext. intros j r _. cbn. f_equal. lia.
Qed.

(** C9, as amended: [format_moves] renders the records as the exporter
    contract says once an empty black half is read as an absent one: a
    record with a non-empty black half is [<i>. <whiteSan> <blackSan> ], a
    record whose black half is absent or empty is [<i>. <whiteSan> ], the
    lines are joined by newlines and the result is the last line; an empty
    list renders as the result alone. *)
Theorem format_moves_contract (moves : list (string * option string)) (result : string) :
  format_moves moves result = contract_text (map drop_empty_black moves) result
  /\ format_moves [] result = result.
Proof.
  split; [|done]. unfold format_moves, contract_text.
  destruct moves as [|r moves]; [done|].
  by rewrite append_lines_contract.
Qed.

(** C9 as stated fails for a record whose black half is the empty string:
    it is a record with a black half, and it is rendered as the white half
    alone. *)
Lemma format_moves_empty_black_half :
  format_moves [("e4", Some "")] "*" = "1. e4 " +:+ Py.nl +:+ "*"
  /\ contract_text [("e4", Some "")] "*" = "1. e4  " +:+ Py.nl +:+ "*"
  /\ format_moves [("e4", Some "")] "*" <> contract_text [("e4", Some "")] "*".
Proof. repeat split; [reflexivity..|]. vm_compute. discriminate. Qed.

End ExporterClaims.

(** ** Claims settled by running the session on the engine *)

Section EngineRuns.
Import Play.

Lemma reachable_run_ops {Position Move : Type} {R : Rules Position Move}
    (ops : list Op) :
  forall g : ChessGame Position Move, reachable g -> reachable (run_ops ops g).2.
Proof.
  induction ops as [|op ops IH]; intros g Hg; [done|].
  cbn. destruct (run_op op g) as [o g1] eqn:Hop.
  specialize (IH g1 (reachable_step _ _ _ _ Hg Hop)).
  by destruct (run_ops ops g1).
Qed.

Lemma reachable_after (ops : list Op) : reachable (after ops).
Proof. apply reachable_run_ops, reachable_init. Qed.

(** Evaluates a closed equation on the engine. *)
Ltac run := vm_compute; reflexivity.

Lemma inr_eq {A B : Type} (x y : B) : @inr A B x = inr y -> x = y.
Proof. by intros [= ->]. Qed.

(** Two boards whose sides to move differ show different positions. *)
Lemma sides_differ (b1 b2 : Board Engine.Position Engine.Move) :
  Engine.sideToMove (position b1) = Engine.White ->
  Engine.sideToMove (position b2) = Engine.Black ->
  position b1 <> position b2.
Proof. intros H1 H2 Heq. rewrite Heq in H1. congruence. Qed.

(** The engine's turns alternate from White's first move, so the
    sessions on it are covered by [disciplined_calls_keep_history]. *)
Lemma engine_white_starts : turn (starting : Engine.Position) = WHITE.
Proof. reflexivity. Qed.

Lemma engine_turn_alternates (p : Engine.Position) (m : Engine.Move) :
  turn (play p m) = negb (turn p).
Proof. cbn. by destruct (Engine.sideToMove p). Qed.

Lemma engine_disciplined_history (ops : list Op) :
  disciplined ops fresh ->
  consistent (after ops) /\ only_last_incomplete (moves (after ops)).
Proof.
  apply (disciplined_calls_keep_history engine_white_starts engine_turn_alternates).
Qed.

(** A game with an undo and an edit made when nothing is pending. *)
Example disciplined_game :
  let ops := [Propose "e4" "white"; Propose "e5" "black"; Propose "Nf3" "white";
              Propose "Nc6" "black"; Edit 2 "white" "d4"; Propose "Bb5" "white";
              Undo; Propose "Bc4" "white"; Finalize] in
  disciplined ops fresh
  /\ moves (after ops) = [("e4", Some "e5"); ("d4", Some "Nc6"); ("Bc4", None)]
  /\ consistent (after ops).
Proof.
  cbv zeta.
  match goal with
  | |- ?d /\ _ => assert (Hd : d) by (vm_compute; tauto)
  end.
  split; [exact Hd|]. split; [run|]. by apply engine_disciplined_history.
Qed.

(** C1, at a call sequence where the code departs from it: White plays
    [e4], Black [e5], White [Nf3], and record 1 is then edited to [d4].
    Every call returns success and the recorded moves are [d4 e5 Nf3],
    but the board is the one after [d4 e5] only: the replay of
    [edit_move] leaves out the pending white move and keeps it pending. *)
Theorem edit_move_forgets_pending_move :
  let ops := [Propose "e4" "white"; Propose "e5" "black"; Propose "Nf3" "white";
              Edit 1 "white" "d4"] in
  forallb succeeded (outcomes ops) = true
  /\ moves (after ops) = [("d4", Some "e5")]
  /\ _pending_white_move (after ops) = Some "Nf3"
  /\ recorded_sans (after ops) = ["d4"; "e5"; "Nf3"]
  /\ play_sans new_board ["d4"; "e5"] = inr (board (after ops))
  /\ ~ consistent (after ops).
Proof.
  cbv zeta.
  split; [run|]. split; [run|]. split; [run|].
  assert (Hsans : recorded_sans
            (after [Propose "e4" "white"; Propose "e5" "black"; Propose "Nf3" "white";
                    Edit 1 "white" "d4"]) = ["d4"; "e5"; "Nf3"]) by run.
  split; [exact Hsans|]. split; [run|].
  intros (b & Hplay & Hpos). rewrite Hsans in Hplay.
  assert (Hreplay : play_sans new_board ["d4"; "e5"; "Nf3"]
            = inr (board (after [Propose "d4" "white"; Propose "e5" "black";
                                 Propose "Nf3" "white"]))) by run.
  rewrite Hreplay in Hplay. apply inr_eq in Hplay. subst b.
  revert Hpos. apply sides_differ; run.
Qed.

(** C2, at a call where the code departs from it: after White's [e4] is
    committed by [finalize_pending_move], a black [e5] is refused for want
    of a pending white move, but the move has already been pushed on the
    board; the records and the pending move are untouched. *)
Theorem black_move_without_pending_is_played :
  let g := after [Propose "e4" "white"; Finalize] in
  let r := validate_and_add_move "e5" "black" g in
  r.1 = Return (false, "Cannot add black move without a white move first")
  /\ moves r.2 = moves g
  /\ _pending_white_move r.2 = _pending_white_move g
  /\ length (move_stack (board r.2)) = S (length (move_stack (board g)))
  /\ position (board r.2) <> position (board g).
Proof.
  cbv zeta.
  split; [run|]. split; [run|]. split; [run|]. split; [run|].
  apply sides_differ; run.
Qed.

(** C5, at reachable states where the code departs from it.  With every
    call returning success: [e4 e5 Nf3], an edit of record 1, then
    [finalize_pending_move], [Nc3] and [Nc6] leave the incomplete record
    [Nf3] in the middle.  With one refused call: [e4], finalize, a black
    [e5] that is refused but played on the board, then [Nf3 Nc6] leave the
    incomplete record [e4] first. *)
Theorem incomplete_record_not_last :
  let ops1 := [Propose "e4" "white"; Propose "e5" "black"; Propose "Nf3" "white";
               Edit 1 "white" "d4"; Finalize;
               Propose "Nc3" "white"; Propose "Nc6" "black"] in
  let ops2 := [Propose "e4" "white"; Finalize; Propose "e5" "black";
               Propose "Nf3" "white"; Propose "Nc6" "black"] in
  (reachable (after ops1)
   /\ forallb succeeded (outcomes ops1) = true
   /\ moves (after ops1) = [("d4", Some "e5"); ("Nf3", None); ("Nc3", Some "Nc6")]
   /\ ~ only_last_incomplete (moves (after ops1)))
  /\ (reachable (after ops2)
      /\ map succeeded (outcomes ops2) = [true; true; false; true; true]
      /\ moves (after ops2) = [("e4", None); ("Nf3", Some "Nc6")]
      /\ ~ only_last_incomplete (moves (after ops2))).
Proof.
  cbv zeta. split.
  - split; [apply reachable_after|]. split; [run|].
    match goal with
    | |- ?l = ?r /\ _ => assert (Hm : l = r) by run
    end.
    split; [exact Hm|]. rewrite Hm. intros Honly.
    by specialize (Honly 1%nat "Nf3" eq_refl).
  - split; [apply reachable_after|]. split; [run|].
    match goal with
    | |- ?l = ?r /\ _ => assert (Hm : l = r) by run
    end.
    split; [exact Hm|]. rewrite Hm. intros Honly.
    by specialize (Honly 0%nat "e4" eq_refl).
Qed.

(** C3 at work: after [e4 e5 Bc4 Nc6], editing White's first move to [d4]
    fails in the replay (the bishop can no longer reach c4) and the
    session is untouched. *)
Lemma edit_move_atomic_witness :
  let g := after [Propose "e4" "white"; Propose "e5" "black";
                  Propose "Bc4" "white"; Propose "Nc6" "black"] in
  let r := edit_move 1 "white" "d4" g in
  r.1 = Return (false, "This edit would create an illegal position")
  /\ r.2 = g.
Proof.
  cbv zeta. split; [run|].
  match goal with
  | |- (edit_move ?n ?c ?san ?g).2 = _ =>
      destruct (edit_move_atomic g (edit_move n c san g).2 n c san
                  (edit_move n c san g).1) as (_ & Hfail & _);
        [apply surjective_pairing|];
      apply (Hfail "This edit would create an illegal position")
  end.
  run.
Defined.

(** C4 as stated fails when the proposal is rejected: with [e4] pending, a
    black [e9] is refused as malformed, and the undo that follows removes
    [e4] instead. *)
Lemma undo_after_rejected_move :
  let g := after [Propose "e4" "white"] in
  (validate_and_add_move "e9" "black" g).1
    = Return (false, "Invalid rank '9': ranks must be 1-8")
  /\ _pending_white_move g = Some "e4"
  /\ _pending_white_move
       (undo_last_move (validate_and_add_move "e9" "black" g).2).2 = None
  /\ ~ undo_restores g "e9" "black".
Proof.
  cbv zeta. split; [run|].
  match goal with
  | |- ?l = ?r /\ ?l' = ?r' /\ _ =>
      assert (Hbefore : l = r) by run; assert (Hafter : l' = r') by run
  end.
  split; [exact Hbefore|]. split; [exact Hafter|].
  unfold undo_restores. intros (_ & Hp & _).
  rewrite Hbefore, Hafter in Hp. discriminate.
Qed.

Lemma undo_inverts_accepted_move_witness :
  undo_last_move (after [Propose "e4" "white"]) = (Return true, fresh)
  /\ undo_restores fresh "e4" "white".
Proof.
  apply (undo_inverts_accepted_move fresh (after [Propose "e4" "white"])
           "e4" "white" ""); [run|intros _; run].
Defined.

(** C10 at work: after [e4 e5] the undo takes the whole record away and
    makes [e4] the pending move. *)
Lemma pending_white_move_not_recorded_witness :
  let g := after [Propose "e4" "white"; Propose "e5" "black"] in
  reachable g
  /\ exists m bd, pop (board g) = Some (m, bd)
       /\ undo_last_move g
            = (Return true, mkGame (metadata g) [] (result g) bd (Some "e4")).
Proof.
  cbv zeta.
  assert (Hreach : reachable (after [Propose "e4" "white"; Propose "e5" "black"])).
  { apply (reachable_step (after [Propose "e4" "white"]) _ (Propose "e5" "black")
             (Return (VTuple (true, "")))); [|run].
    apply (reachable_step fresh _ (Propose "e4" "white")
             (Return (VTuple (true, "")))); [|run].
    apply reachable_init. }
  split; [exact Hreach|].
  apply (proj2 (proj2 (pending_white_move_not_recorded _ Hreach)) [] "e4" "e5"); run.
Defined.

(** C7 as stated fails on a string that is not a result: the call raises. *)
Lemma set_result_raises_on_invalid :
  set_result "invalid" fresh
    = (Raise (ValueError
         "Invalid result: invalid. Must be one of ['1-0', '0-1', '1/2-1/2', '*']"),
       fresh).
Proof. run. Qed.

End EngineRuns.

(** * Further properties *)

(** ** The validator: whitespace, acceptance and messages *)

Section ValidatorMore.
Import Re MoveValidator.

Lemma rstrip_cons_keep (c : ascii) (s : string) :
  Py.isspace c = false -> Py.rstrip (String c s) = String c (Py.rstrip s).
Proof. intros Hc. simpl. rewrite Hc. by destruct (Py.rstrip s). Qed.

Lemma rstrip_idem (s : string) : Py.rstrip (Py.rstrip s) = Py.rstrip s.
Proof.
  induction s as [|c s IH]; [done|]. simpl.
  destruct (Py.rstrip s) as [|d k] eqn:Hr.
  - destruct (Py.isspace c) eqn:Hc; [done|]. simpl. by rewrite Hc.
  - simpl. simpl in IH. by rewrite IH.
Qed.

Lemma lstrip_head (s : string) :
  match Py.lstrip s with
  | EmptyString => True
  | String c _ => Py.isspace c = false
  end.
Proof.
  induction s as [|c s IH]; [done|]. simpl.
  destruct (Py.isspace c) eqn:Hc; [done|]. by simpl.
Qed.

Lemma lstrip_keep (c : ascii) (s : string) :
  Py.isspace c = false -> Py.lstrip (String c s) = String c s.
Proof. intros Hc. simpl. by rewrite Hc. Qed.

Lemma strip_idem (s : string) : Py.strip (Py.strip s) = Py.strip s.
Proof.
  unfold Py.strip. pose proof (lstrip_head s) as Hhead.
  destruct (Py.lstrip s) as [|c t]; [done|].
  rewrite (rstrip_cons_keep _ _ Hhead), (lstrip_keep _ _ Hhead).
  rewrite <- (rstrip_cons_keep _ _ Hhead). apply rstrip_idem.
Qed.

(** The last character that [rstrip] keeps is not white space. *)
Lemma rstrip_last (s : string) : forall (u : string) (c : ascii),
  Py.rstrip s = u +:+ String c "" -> Py.isspace c = false.
Proof.
  induction s as [|a s IH]; intros u c; simpl.
  - by destruct u.
  - destruct (Py.rstrip s) as [|d k] eqn:Hr.
    + destruct (Py.isspace a) eqn:Ha; [by destruct u|].
      destruct u as [|b [|? ?]]; [by intros [= <-]|done|done].
    + destruct u as [|b u]; [done|]. rewrite append_cons. intros [= _ Hk].
      by apply (IH u c).
Qed.

Lemma lstrip_space (s : string) : Py.all_space s = true -> Py.lstrip s = "".
Proof.
  induction s as [|c s IH]; [done|]. simpl.
  intros [Hc Hs]%andb_true_iff. rewrite Hc. by apply IH.
Qed.

Lemma rstrip_space (s : string) : Py.all_space s = true -> Py.rstrip s = "".
Proof.
  induction s as [|c s IH]; [done|]. simpl.
  intros [Hc Hs]%andb_true_iff. by rewrite (IH Hs), Hc.
Qed.

Lemma lstrip_app_space (pre t : string) :
  Py.all_space pre = true -> Py.lstrip (pre +:+ t) = Py.lstrip t.
Proof.
  induction pre as [|c pre IH]; [done|]. rewrite append_cons. simpl.
  intros [Hc Hs]%andb_true_iff. rewrite Hc. by apply IH.
Qed.

Lemma rstrip_app_space (t post : string) :
  Py.all_space post = true -> Py.rstrip (t +:+ post) = Py.rstrip t.
Proof.
  intros Hpost. induction t as [|c t IH]; [by apply rstrip_space|].
  rewrite append_cons. simpl. by rewrite IH.
Qed.

Lemma lstrip_app (s post : string) :
  Py.lstrip (s +:+ post) =
    match Py.lstrip s with
    | EmptyString => Py.lstrip post
    | kept => kept +:+ post
    end.
Proof.
  induction s as [|c s IH]; [reflexivity|].
  rewrite append_cons. simpl. by destruct (Py.isspace c).
Qed.

Lemma strip_padding (pre s post : string) :
  Py.all_space pre = true -> Py.all_space post = true ->
  Py.strip (pre +:+ s +:+ post) = Py.strip s.
Proof.
  intros Hpre Hpost. unfold Py.strip.
  rewrite (lstrip_app_space _ _ Hpre), lstrip_app.
  destruct (Py.lstrip s) as [|c k] eqn:Hs.
  - by rewrite (lstrip_space _ Hpost).
  - by rewrite rstrip_app_space.
Qed.

(** X1: white space around a move does not matter to [validate_move]:
    padding a move on either side with any white-space characters gives
    the same verdict and the same message, and so does stripping it. *)
Theorem validate_move_ignores_padding (pre s post : string) :
  Py.all_space pre = true -> Py.all_space post = true ->
  validate_move (pre +:+ s +:+ post) = validate_move s
  /\ validate_move (Py.strip s) = validate_move s.
Proof.
  intros Hpre Hpost. unfold validate_move.
  by rewrite strip_padding, strip_idem.
Qed.

Lemma validate_move_ignores_padding_witness :
  validate_move (("  " +:+ Py.nl) +:+ "Nf3" +:+ " ") = validate_move "Nf3"
  /\ validate_move (Py.strip "Nf3") = validate_move "Nf3".
Proof.
  apply (validate_move_ignores_padding ("  " +:+ Py.nl) "Nf3" " "); reflexivity.
Defined.

(** What decides acceptance: the stripped move has one of the five
    shapes and is not caught by the lower-case-piece guard. *)
Lemma validate_move_accepted (s : string) :
  (validate_move s).1 = true ->
  existsb (fun p => matches p.2 (Py.strip s)) patterns = true
  /\ lowercase_piece (Py.strip s) = false
  /\ validate_move s = (true, "").
Proof.
  unfold validate_move.
  destruct (Py.strip s) as [|c0 m0]; [done|].
  destruct (lowercase_piece _); [done|].
  destruct (bad_rank _); [done|]. destruct (bad_letter _); [done|].
  destruct (promotion_error _); [done|].
  by destruct (existsb _ _).
Qed.

(** X2: [validate_move] accepts a move exactly when the stripped move
    matches one of the five patterns and does not trip the
    lower-case-piece guard; the rank, letter and promotion checks never
    reject a move that a pattern would accept. *)
Theorem validate_move_accepts_iff (s : string) :
  (validate_move s).1 = true <->
  existsb (fun p => matches p.2 (Py.strip s)) patterns = true
  /\ lowercase_piece (Py.strip s) = false.
Proof.
  split.
  - intros H. apply validate_move_accepted in H. tauto.
  - intros [Hex Hlow]. by rewrite (validate_move_on_shapes s Hex), Hlow.
Qed.

Lemma append_nonempty (a b : string) : a <> "" -> a +:+ b <> "".
Proof. by destruct a. Qed.

Lemma generate_error_message_nonempty (move : string) :
  _generate_error_message move <> "".
Proof.
  unfold _generate_error_message.
  destruct (Py.startswith _ _); [done|]. destruct (contains _ _); [done|].
  destruct (_ && _); [done|]. by apply append_nonempty.
Qed.

(** X3: the message tells the verdict: [validate_move] returns the empty
    message exactly when it accepts the move; every rejection carries a
    non-empty message. *)
Theorem validate_move_message_empty_iff (s : string) :
  (validate_move s).2 = "" <-> (validate_move s).1 = true.
Proof.
  split; [|by intros (_ & _ & ->)%validate_move_accepted].
  unfold validate_move.
  destruct (Py.strip s) as [|c0 m0]; [done|].
  destruct (lowercase_piece _); [done|].
  destruct (bad_rank _); [done|]. destruct (bad_letter _); [done|].
  unfold promotion_error.
  destruct (contains "=" _).
  - destruct (search_promo _) as [p|]; [|done].
    destruct (negb _); [done|]. destruct (existsb _ _); [done|].
    simpl. intros H. by apply generate_error_message_nonempty in H.
  - destruct (existsb _ _); [done|].
    simpl. intros H. by apply generate_error_message_nonempty in H.
Qed.

(** X4: an accepted move, once stripped, is made of the characters
    [O-abcdefgh12345678xKQRBN=+#!?] only: no white space inside, no digit
    0 or 9, no other letter. *)
Theorem accepted_move_alphabet (s : string) :
  (validate_move s).1 = true -> all_in SAN_CHARS (Py.strip s) = true.
Proof.
  intros (Hex & _ & _)%validate_move_accepted.
  apply existsb_exists in Hex as ([name r] & Hin & Hm). simpl in Hm.
  apply matchk_consumes in Hm as (s1 & s2 & Hs & Hs1 & Hend).
  assert (Hsub : forall c, Py.char_in c (alphabet r) = true ->
                           Py.char_in c SAN_CHARS = true).
  { intros c Hc.
    assert (forallb (fun c => Py.char_in c SAN_CHARS)
                    (list_ascii_of_string (alphabet r)) = true) as Hall.
    { simpl in Hin.
      by destruct Hin as [[= <- <-]|[[= <- <-]|[[= <- <-]|[[= <- <-]|[[= <- <-]|[]]]]]]. }
    exact (all_chars_sound _ _ _ Hall Hc). }
  apply at_dollar_inv in Hend as [->| ->].
  - rewrite Hs, all_in_app. simpl. rewrite andb_true_r.
    by eapply all_in_weaken.
  - exfalso. unfold Py.strip in Hs. by apply rstrip_last in Hs.
Qed.

Lemma accepted_move_alphabet_witness : all_in SAN_CHARS (Py.strip " exd5+ ") = true.
Proof. apply accepted_move_alphabet. reflexivity. Defined.

Lemma char_in_In (c : ascii) (alpha : string) :
  Py.char_in c alpha = true -> In c (list_ascii_of_string alpha).
Proof.
  induction alpha as [|d alpha IH]; simpl; [done|].
  intros [->%Ascii.eqb_eq|H]%orb_true_iff; auto.
Qed.

(** Runs through the members of a literal character class. *)
Ltac char_cases H :=
  apply char_in_In in H; simpl in H;
  repeat (destruct H as [H|H]; [symmetry in H; subst|]);
  try (destruct H).

(** X5: every board square is a valid move: a string that
    [is_valid_square] accepts is accepted by [validate_move] (as the pawn
    move to that square), the b-file squares included. *)
Theorem valid_square_is_valid_move (square : string) :
  is_valid_square square = true -> validate_move square = (true, "").
Proof.
  destruct square as [|f [|r [|? ?]]]; try done. unfold is_valid_square.
  intros [Hf Hr]%andb_true_iff.
  char_cases Hf; char_cases Hr; reflexivity.
Qed.

Lemma valid_square_is_valid_move_witness : validate_move "b7" = (true, "").
Proof. apply valid_square_is_valid_move. reflexivity. Defined.

(** The first character of a move that has one of the five shapes. *)
Lemma shape_first_char (m : string) :
  existsb (fun p => matches p.2 m) patterns = true ->
  exists c rest, m = String c rest /\ Py.char_in c "OabcdefghxKQRBN" = true.
Proof.
  intros Hex.
  apply existsb_exists in Hex as ([name r] & Hin & Hm). simpl in Hin, Hm.
  destruct m as [|c rest].
  { by destruct Hin as [[= <- <-]|[[= <- <-]|[[= <- <-]|[[= <- <-]|[[= <- <-]|[]]]]]]. }
  exists c, rest. split; [done|]. unfold matches in Hm.
  destruct Hin as [[= <- <-]|[[= <- <-]|[[= <- <-]|[[= <- <-]|[[= <- <-]|[]]]]]];
    cbn [matchk CASTLING PAWN_PROMOTION PAWN_CAPTURE PAWN_MOVE PIECE_MOVE] in Hm.
  - apply andb_true_iff in Hm as [Hc _]. char_cases Hc. done.
  - apply orb_true_iff in Hm as [Hm|Hm]; [|apply orb_true_iff in Hm as [Hm|Hm]];
      apply andb_true_iff in Hm as [Hc _]; char_cases Hc; done.
  - apply andb_true_iff in Hm as [Hc _]. char_cases Hc; done.
  - apply andb_true_iff in Hm as [Hc _]. char_cases Hc; done.
  - apply andb_true_iff in Hm as [Hc _]. char_cases Hc; done.
Qed.

(** X6: every castling string is a valid move and no string is both a
    castling and a promotion: when [is_castling] holds, [validate_move]
    accepts and [is_promotion] is false. *)
Theorem castling_is_valid_and_not_promotion (move : string) :
  is_castling move = true ->
  validate_move move = (true, "") /\ is_promotion move = false.
Proof.
  unfold is_castling, is_promotion. intros Hm.
  assert (Hhead : exists rest, Py.strip move = String "O" rest).
  { unfold matches in Hm. destruct (Py.strip move) as [|c rest]; [done|].
    cbn [matchk CASTLING] in Hm. apply andb_true_iff in Hm as [Hc _].
    char_cases Hc. eauto. }
  destruct Hhead as [rest Hs]. split.
  - rewrite validate_move_on_shapes; [by rewrite Hs|].
    simpl. by rewrite Hm.
  - by rewrite Hs.
Qed.

Lemma castling_is_valid_and_not_promotion_witness :
  validate_move " O-O-O+ " = (true, "") /\ is_promotion " O-O-O+ " = false.
Proof. apply castling_is_valid_and_not_promotion. reflexivity. Defined.

(** For a single character, [is_valid_piece] holds exactly of the five
    piece letters. *)
Lemma is_valid_piece_letter (c : ascii) :
  is_valid_piece (String c "") = true <-> In c (list_ascii_of_string "KQRBN").
Proof.
  split.
  - unfold is_valid_piece. simpl. rewrite !andb_true_r, !orb_false_r.
    intros H. apply (char_in_In c "KQRBN"). simpl. by rewrite orb_false_r.
  - intros H. simpl in H.
    by destruct H as [<-|[<-|[<-|[<-|[<-|[]]]]]].
Qed.

(** X7: an accepted move starts with [O], with a file letter, with the
    capture mark [x], or with a letter that [is_valid_piece] accepts. *)
Theorem accepted_move_first_char (s : string) :
  (validate_move s).1 = true ->
  exists c rest, Py.strip s = String c rest
    /\ (c = "O"%char \/ Py.char_in c "abcdefghx" = true
        \/ is_valid_piece (String c "") = true).
Proof.
  intros (Hex & _ & _)%validate_move_accepted.
  destruct (shape_first_char _ Hex) as (c & rest & Hs & Hc).
  exists c, rest. split; [done|]. char_cases Hc; auto.
  all: right; right; reflexivity.
Qed.

Lemma accepted_move_first_char_witness :
  exists c rest, Py.strip "Qxd8" = String c rest
    /\ (c = "O"%char \/ Py.char_in c "abcdefghx" = true
        \/ is_valid_piece (String c "") = true).
Proof. apply (accepted_move_first_char "Qxd8"). reflexivity. Defined.

Lemma startswith_prefix (p : string) : forall s : string,
  Py.startswith s p = true <-> exists post, s = p +:+ post.
Proof.
  induction p as [|a p IH]; intros s.
  - split; [intros _; by exists s|by destruct s].
  - destruct s as [|b s]; simpl.
    + split; [done|]. intros [post H]. by rewrite append_cons in H.
    + rewrite andb_true_iff, Ascii.eqb_eq, IH. split.
      * intros [-> [post ->]]. exists post. by rewrite append_cons.
      * intros [post H]. rewrite append_cons in H. injection H as -> ->. eauto.
Qed.

Lemma str_in_substring (sub : string) : forall s : string,
  Py.str_in sub s = true <-> exists pre post, s = pre +:+ sub +:+ post.
Proof.
  induction s as [|c s IH].
  - change (Py.str_in sub "") with (Py.startswith "" sub || false).
    rewrite orb_true_iff, startswith_prefix. split.
    + intros [[post H]|?]; [|done]. by exists "", post.
    + intros ([|? ?] & post & H); [|by rewrite append_cons in H].
      left. by exists post.
  - change (Py.str_in sub (String c s))
      with (Py.startswith (String c s) sub || Py.str_in sub s).
    rewrite orb_true_iff, startswith_prefix, IH. split.
    + intros [[post H]|(pre & post & ->)]; [by exists "", post|].
      exists (String c pre), post. by rewrite append_cons.
    + intros ([|a pre] & post & H); [left; by exists post|].
      rewrite append_cons in H. injection H as -> ->. right. eauto.
Qed.

(** X25: [is_valid_piece] is the substring test that the source writes:
    it accepts exactly the contiguous runs of [KQRBN], so the empty
    string and runs such as [QR] pass it; of the one-character strings
    it accepts the five piece letters and no other. *)
Theorem is_valid_piece_is_substring_test (piece : string) :
  (is_valid_piece piece = true
     <-> exists pre post, "KQRBN" = pre +:+ piece +:+ post)
  /\ (forall c, is_valid_piece (String c "") = true
                  <-> In c (list_ascii_of_string "KQRBN"))
  /\ is_valid_piece "" = true /\ is_valid_piece "QR" = true.
Proof.
  split; [apply str_in_substring|]. split; [apply is_valid_piece_letter|done].
Qed.

End ValidatorMore.

(** ** The exporter: headers, text and file names *)

Section ExporterMore.
Import PGNExporter PGNFile.
Context {Position Move : Type} {R : Rules Position Move}.
#[local] Abbreviation ChessGame := (ChessGame Position Move).
Implicit Types g : ChessGame.

Lemma endswith_app (a b suffix : string) :
  Py.endswith b suffix = true -> Py.endswith (a +:+ b) suffix = true.
Proof.
  intros Hb. induction a as [|c a IH]; [done|].
  rewrite append_cons. simpl. rewrite IH. apply orb_true_r.
Qed.

Lemma endswith_refl (s : string) : Py.endswith s s = true.
Proof. destruct s; simpl; by rewrite ?String.eqb_refl, ?Ascii.eqb_refl. Qed.

Lemma startswith_app (a b : string) : Py.startswith (a +:+ b) a = true.
Proof.
  induction a as [|c a IH]; [by destruct b|].
  rewrite append_cons. simpl. by rewrite Ascii.eqb_refl.
Qed.

Lemma join_snoc (sep : string) (l : list string) (x : string) :
  Py.join sep (l ++ [x]) =
    match l with
    | [] => x
    | _ => Py.join sep l +:+ sep +:+ x
    end.
Proof.
  induction l as [|a [|b l] IH]; [done|done|].
  change (Py.join sep ((a :: b :: l) ++ [x]))
    with (a +:+ sep +:+ Py.join sep ((b :: l) ++ [x])).
  rewrite IH.
  change (Py.join sep (a :: b :: l)) with (a +:+ sep +:+ Py.join sep (b :: l)).
  by rewrite !append_assoc.
Qed.

Lemma append_lines_nonempty (ms : list (string * option string)) :
  forall lines i, lines <> [] -> append_lines lines i ms <> [].
Proof.
  induction ms as [|[w b] ms IH]; intros lines i Hne; [done|].
  cbn. apply IH. by destruct lines.
Qed.

(** [format_moves] puts the result last. *)
Lemma format_moves_result_last (ms : list (string * option string)) (res : string) :
  exists body, format_moves ms res = body +:+ res.
Proof.
  unfold format_moves. destruct ms as [|[w b] ms]; [by exists ""|].
  rewrite join_snoc.
  destruct (append_lines [] 1 ((w, b) :: ms)) as [|l ls] eqn:Hl.
  - by exists "".
  - exists (Py.join Py.nl (l :: ls) +:+ Py.nl). by rewrite append_assoc.
Qed.

(** X8: [format_headers] reads the seven required keys and nothing else:
    setting or removing any other key of the metadata leaves the header
    block unchanged. *)
Theorem format_headers_ignores_other_keys (md : gmap string string) (k v : string) :
  k ∉ REQUIRED_HEADERS ->
  format_headers (<[k := v]> md) = format_headers md
  /\ format_headers (delete k md) = format_headers md.
Proof.
  intros Hk. unfold format_headers.
  split; f_equal; apply map_ext_in; intros h Hh%list_elem_of_In;
    (assert (k <> h) by (by intros ->));
    by rewrite ?lookup_insert_ne, ?lookup_delete_ne.
Qed.

Lemma format_headers_ignores_other_keys_witness :
  format_headers (<["ECO" := "C50"]> ∅) = format_headers ∅
  /\ format_headers (delete "ECO" ∅) = format_headers ∅.
Proof.
  apply (format_headers_ignores_other_keys ∅ "ECO" "C50").
  apply (bool_decide_unpack ("ECO" ∉ REQUIRED_HEADERS)). vm_compute. exact I.
Defined.

(** X9: the PGN text starts with the header block and ends with the
    game result followed by a newline, whatever the moves are. *)
Theorem pgn_string_ends_with_result g :
  Py.startswith (generate_pgn_string g) (format_headers (metadata g)) = true
  /\ Py.endswith (generate_pgn_string g) (result g +:+ Py.nl) = true
  /\ Py.endswith (format_moves (moves g) (result g)) (result g) = true.
Proof.
  unfold generate_pgn_string.
  destruct (format_moves_result_last (moves g) (result g)) as [body ->].
  split; [apply startswith_app|]. split.
  - rewrite (append_assoc body). do 4 apply endswith_app. apply endswith_refl.
  - apply endswith_app, endswith_refl.
Qed.

Lemma format_headers_result (md : gmap string string) :
  Py.endswith (format_headers md)
    (header_line "Result" (default "?" (md !! "Result"))) = true.
Proof.
  unfold format_headers.
  change REQUIRED_HEADERS
    with (["Event"; "Site"; "Date"; "Round"; "White"; "Black"] ++ ["Result"]).
  rewrite map_app. cbn [map]. rewrite join_snoc. cbn [map app].
  do 2 apply endswith_app. apply endswith_refl.
Qed.

Lemma result_default_step g g' (op : Op) o :
  run_op op g = (o, g') ->
  result g = default "*" (metadata g !! "Result") ->
  result g' = default "*" (metadata g' !! "Result").
Proof.
  intros Hrun Hinv.
  destruct op as [san color| |n color san| |res]; cbn in Hrun; unfold bind in Hrun.
  - destruct (validate_and_add_move san color g) as [o1 g1] eqn:Hv.
    assert (g1 = g') as -> by (destruct o1; by injection Hrun).
    by apply validate_and_add_move_cases in Hv
      as [(msg & _ & ->)|(m & _ & _ &
            [(_ & _ & ->)|[(_ & w & _ & _ & ->)|(_ & _ & _ & ->)]])].
  - destruct (undo_last_move g) as [o1 g1] eqn:Hu.
    assert (g1 = g') as -> by (destruct o1; by injection Hrun).
    by apply undo_last_move_cases in Hu
      as [(e & _ & -> & _)|[(_ & -> & _)|(m & bd & _ & _ &
            [(p & _ & ->)|[(l & w & b & _ & _ & ->)|(l & w & _ & _ & ->)]])]].
  - destruct (edit_move n color san g) as [o1 g1] eqn:He.
    assert (g1 = g') as -> by (destruct o1; by injection Hrun).
    by apply edit_move_cases in He
      as [(msg & _ & ->)|(idx & w & b & tm & tb & _ & _ & _ & _ & ->)].
  - rewrite finalize_pending_move_cases in Hrun. cbn in Hrun.
    injection Hrun as _ <-. by destruct (_pending_white_move g).
  - rewrite set_result_cases in Hrun.
    destruct (existsb _ _); cbn in Hrun; injection Hrun as _ <-; [|done].
    cbn. by rewrite lookup_insert_eq.
Qed.

(** X10: in every reachable session the [result] attribute is what the
    metadata says: [metadata.get("Result", "*")].  The constructor sets it
    so and [set_result] updates both together. *)
Theorem result_matches_metadata g :
  reachable g -> result g = default "*" (metadata g !! "Result").
Proof.
  induction 1 as [md|g g' op o _ IH Hrun]; [done|].
  by eapply result_default_step.
Qed.

(** X11: the Result header and the closing result of the PGN text agree
    whenever the metadata has a Result entry: the header block then ends
    with the line for the session's [result].  When the entry is missing
    the header shows a question mark although the session's result, and
    so the closing token, is the asterisk. *)
Theorem pgn_result_header g :
  reachable g ->
  (is_Some (metadata g !! "Result") ->
   Py.endswith (format_headers (metadata g)) (header_line "Result" (result g)) = true)
  /\ (metadata g !! "Result" = None ->
      result g = "*"
      /\ Py.endswith (format_headers (metadata g)) (header_line "Result" "?") = true).
Proof.
  intros Hreach. pose proof (format_headers_result (metadata g)) as Hend.
  assert (Hres : result g = default "*" (metadata g !! "Result")).
  { clear Hend. induction Hreach as [md|g g' op o _ IH Hrun]; [done|].
    by eapply result_default_step. }
  split.
  - intros [v Hv]. rewrite Hv in Hend, Hres. cbn in Hend, Hres. by rewrite Hres.
  - intros Hnone. rewrite Hnone in Hend, Hres. by split.
Qed.

Lemma replace_char_gone (old new : ascii) (s : string) :
  old <> new -> Py.char_in old (Py.replace_char old new s) = false.
Proof.
  intros Hne. induction s as [|c s IH]; [done|]. simpl. rewrite IH, orb_false_r.
  destruct (Ascii.eqb_spec c old) as [->|Hc].
  - by apply Ascii.eqb_neq.
  - apply Ascii.eqb_neq. congruence.
Qed.

(** X12: a generated file name always ends in [.pgn], and the spaces of
    the player names are replaced: the name has no space unless the Date
    or Round entry has one. *)
Theorem generate_filename_shape (md : gmap string string) :
  Py.endswith (generate_filename md) ".pgn" = true
  /\ (Py.char_in " " (default "0000.00.00" (md !! "Date")) = false ->
      Py.char_in " " (default "1" (md !! "Round")) = false ->
      Py.char_in " " (generate_filename md) = false).
Proof.
  unfold generate_filename. split.
  - do 7 apply endswith_app. apply endswith_refl.
  - intros Hd Hr. rewrite !char_in_app, Hd, Hr.
    by rewrite !replace_char_gone.
Qed.

End ExporterMore.

Section ExporterRuns.
Import PGNExporter PGNFile.

Lemma result_matches_metadata_witness :
  result (Play.after [Propose "e4" "white"; SetResult "1-0"]) =
    default "*" (metadata (Play.after [Propose "e4" "white"; SetResult "1-0"]) !! "Result").
Proof.
  apply result_matches_metadata.
  apply (reachable_step (Play.after [Propose "e4" "white"]) _ (SetResult "1-0")
           (Return VNone)); [|vm_compute; reflexivity].
  apply (reachable_step Play.fresh _ (Propose "e4" "white")
           (Return (VTuple (true, "")))); [|vm_compute; reflexivity].
  apply reachable_init.
Defined.

Lemma pgn_result_header_witness :
  (is_Some (metadata (Play.fresh) !! "Result") ->
   Py.endswith (format_headers (metadata Play.fresh))
     (header_line "Result" (result Play.fresh)) = true)
  /\ (metadata Play.fresh !! "Result" = None ->
      result Play.fresh = "*"
      /\ Py.endswith (format_headers (metadata Play.fresh))
           (header_line "Result" "?") = true).
Proof. apply pgn_result_header, reachable_init. Defined.

End ExporterRuns.

(** ** The exporter: unique file names and the export *)

Section FilesMore.
Import PGNExporter PGNFile.

Lemma append_inv_l (a b c : string) : a +:+ b = a +:+ c -> b = c.
Proof.
  induction a as [|d a IH]; [done|]. rewrite !append_cons. intros [= H]. auto.
Qed.

Lemma length_append (a b : string) :
  String.length (a +:+ b) = String.length a + String.length b.
Proof. induction a as [|d a IH]; [done|]. rewrite append_cons. simpl. by rewrite IH. Qed.

Lemma append_inv_r (t : string) : forall a b : string, a +:+ t = b +:+ t -> a = b.
Proof.
  induction a as [|c a IH]; intros b H.
  - apply (f_equal String.length) in H. rewrite !length_append in H.
    destruct b; [done|]. simpl in H. lia.
  - destruct b as [|d b].
    + apply (f_equal String.length) in H. rewrite !length_append in H.
      simpl in H. lia.
    + rewrite !append_cons in H. injection H as -> H. f_equal. by apply IH.
Qed.

Lemma numbered_inj (base_name : string) (j k : nat) :
  numbered base_name j = numbered base_name k -> j = k.
Proof.
  unfold numbered. intros H%append_inv_l. apply (append_inv_l "_") in H.
  apply append_inv_r in H. by apply (inj pretty) in H.
Qed.

Lemma startswith_nil (s : string) : Py.startswith s "" = true.
Proof. by destruct s. Qed.

(** Whether a candidate is an absolute path does not depend on its number. *)
Lemma numbered_head (base_name : string) (j : nat) :
  Py.startswith (numbered base_name j) "/" = Py.startswith (base_name +:+ "_") "/".
Proof.
  unfold numbered. destruct base_name as [|c b]; [reflexivity|].
  rewrite !append_cons.
  change (Ascii.eqb "/" c && Py.startswith (b +:+ "_" +:+ pretty j +:+ ".pgn") ""
          = Ascii.eqb "/" c && Py.startswith (b +:+ "_") "").
  by rewrite !startswith_nil.
Qed.

Lemma path_join_numbered_inj (directory base_name : string) (j k : nat) :
  path_join directory (numbered base_name j)
    = path_join directory (numbered base_name k) -> j = k.
Proof.
  unfold path_join. rewrite !numbered_head.
  destruct (Py.startswith _ _); [apply numbered_inj|].
  destruct directory as [|c d]; [apply numbered_inj|].
  destruct (Py.endswith _ _).
  - intros H%append_inv_l. by apply numbered_inj in H.
  - intros H%append_inv_l. apply (append_inv_l "/") in H. by apply numbered_inj in H.
Qed.

Lemma exists_spec (fs : Files) (p : string) :
  exists_ fs p = false <-> fs !! p = None.
Proof.
  unfold exists_. rewrite bool_decide_eq_false, <- eq_None_not_Some. done.
Qed.

Lemma unique_loop_some (fs : Files) (directory base_name : string) (fuel : nat) :
  forall (counter : nat) (r : string),
    unique_loop fs directory base_name fuel counter = Some r ->
    exists k, counter <= k /\ r = numbered base_name k
      /\ fs !! path_join directory r = None
      /\ forall j, counter <= j < k ->
           is_Some (fs !! path_join directory (numbered base_name j)).
Proof.
  induction fuel as [|fuel IH]; intros counter r; [done|]. simpl.
  destruct (exists_ fs _) eqn:Hex; simpl.
  - intros (k & Hk & -> & Hnone & Hbelow)%IH.
    exists k. split; [lia|]. split; [done|]. split; [done|].
    intros j Hj. destruct (decide (j = counter)) as [->|Hne].
    + unfold exists_ in Hex. by apply bool_decide_eq_true in Hex.
    + apply Hbelow. lia.
  - intros [= <-]. exists counter. split; [lia|]. split; [done|].
    split; [by apply exists_spec|]. intros j Hj. lia.
Qed.

Lemma unique_loop_none (fs : Files) (directory base_name : string) (fuel : nat) :
  forall counter : nat,
    unique_loop fs directory base_name fuel counter = None ->
    forall j, counter <= j < counter + fuel ->
      is_Some (fs !! path_join directory (numbered base_name j)).
Proof.
  induction fuel as [|fuel IH]; intros counter Hnone j Hj; [lia|]. simpl in Hnone.
  destruct (exists_ fs _) eqn:Hex; simpl in Hnone; [|done].
  destruct (decide (j = counter)) as [->|Hne].
  - unfold exists_ in Hex. by apply bool_decide_eq_true in Hex.
  - apply (IH _ Hnone). lia.
Qed.

(** As many distinct existing paths as rounds: more rounds than files
    cannot all find their candidate taken. *)
Lemma candidates_bounded (fs : Files) (directory base_name : string)
    (counter fuel : nat) :
  (forall j, counter <= j < counter + fuel ->
     is_Some (fs !! path_join directory (numbered base_name j))) ->
  fuel <= size fs.
Proof.
  intros Hall.
  set (P := fun j => path_join directory (numbered base_name j)).
  assert (Hinj : Inj (=) (=) P) by (intros j k; apply path_join_numbered_inj).
  assert (Hsub : list_to_set (P <$> seq counter fuel) ⊆ dom fs).
  { intros p Hp. apply elem_of_list_to_set, list_elem_of_fmap in Hp as (j & -> & Hj).
    apply elem_of_seq in Hj. apply elem_of_dom, Hall. lia. }
  apply subseteq_size in Hsub.
  rewrite size_list_to_set, length_fmap, length_seq, size_dom in Hsub; [done|].
  apply NoDup_fmap; [done|]. apply NoDup_seq.
Qed.

(** With more rounds than files the search ends, on a free name that is
    the proposed one or a numbered one. *)
Lemma unique_name_found (fs : Files) (fuel : nat) (filename directory : string) :
  size fs < fuel ->
  exists r, ensure_unique_filename fs fuel filename directory = Some r
    /\ fs !! path_join directory r = None
    /\ (r = filename \/ exists k, r = numbered (Py.drop_last 4 filename) k).
Proof.
  intros Hfuel. unfold ensure_unique_filename.
  destruct (exists_ fs (path_join directory filename)) eqn:Hex; simpl.
  - destruct (unique_loop _ _ _ _ _) as [r|] eqn:Hloop.
    + apply unique_loop_some in Hloop as (k & _ & -> & Hnone & _). eauto 6.
    + exfalso. pose proof (unique_loop_none _ _ _ _ _ Hloop) as Hall.
      apply candidates_bounded in Hall. lia.
  - apply exists_spec in Hex. eauto.
Qed.

(** X13: with more rounds than there are files, [ensure_unique_filename]
    finds a name: the name it returns is not taken; it is the proposed
    name when that one is free, and otherwise the proposed name without
    its last four characters followed by [_k.pgn] for the smallest [k]
    from 2 on whose name is free. *)
Theorem ensure_unique_filename_fresh (fs : Files) (fuel : nat)
    (filename directory : string) :
  size fs < fuel ->
  exists r, ensure_unique_filename fs fuel filename directory = Some r
    /\ fs !! path_join directory r = None
    /\ (fs !! path_join directory filename = None -> r = filename)
    /\ (is_Some (fs !! path_join directory filename) ->
        exists k, 2 <= k /\ r = numbered (Py.drop_last 4 filename) k
          /\ forall j, 2 <= j < k ->
               is_Some (fs !! path_join directory
                                (numbered (Py.drop_last 4 filename) j))).
Proof.
  intros Hfuel. unfold ensure_unique_filename.
  destruct (exists_ fs (path_join directory filename)) eqn:Hex; simpl.
  - destruct (unique_loop _ _ _ _ _) as [r|] eqn:Hloop.
    + apply unique_loop_some in Hloop as (k & Hk & -> & Hnone & Hbelow).
      eexists. split; [done|]. split; [done|]. split.
      * intros Hfree. apply exists_spec in Hfree. congruence.
      * intros _. by exists k.
    + exfalso. pose proof (unique_loop_none _ _ _ _ _ Hloop) as Hall.
      apply candidates_bounded in Hall. lia.
  - apply exists_spec in Hex. exists filename.
    split; [done|]. split; [done|]. split; [done|].
    intros [v Hv]. congruence.
Qed.

Lemma endswith_path_join (directory name suffix : string) :
  Py.endswith name suffix = true ->
  Py.endswith (path_join directory name) suffix = true.
Proof.
  intros Hn. unfold path_join. destruct (Py.startswith _ _); [done|].
  destruct directory; [done|]. destruct (Py.endswith (String _ _) "/").
  - by apply endswith_app.
  - by do 2 apply endswith_app.
Qed.

Lemma endswith_numbered (base_name : string) (k : nat) :
  Py.endswith (numbered base_name k) ".pgn" = true.
Proof. unfold numbered. do 3 apply endswith_app. apply endswith_refl. Qed.

(** X14: with more rounds than there are files, [export_to_file] writes
    the PGN text of the game to a path that did not exist before, so no
    existing file is overwritten or changed, and the path ends in
    [.pgn], whether the name was given or generated. *)
Theorem export_never_overwrites {Position Move : Type} (fs : Files) (fuel : nat)
    (game : ChessGame Position Move) (filename : option string)
    (directory : string) :
  size fs < fuel ->
  exists filepath,
    export_to_file fs fuel game filename directory
      = Some (filepath, <[filepath := generate_pgn_string game]> fs)
    /\ fs !! filepath = None
    /\ (forall p, is_Some (fs !! p) ->
          <[filepath := generate_pgn_string game]> fs !! p = fs !! p)
    /\ Py.endswith filepath ".pgn" = true.
Proof.
  intros Hfuel. unfold export_to_file.
  set (f0 := match filename with Some f => f | None => _ end).
  set (f1 := if negb (Py.endswith f0 ".pgn") then _ else _).
  assert (Hf1 : Py.endswith f1 ".pgn" = true).
  { subst f1. destruct (Py.endswith f0 ".pgn") eqn:Hend; simpl; [done|].
    apply endswith_app, endswith_refl. }
  destruct (unique_name_found fs fuel f1 directory Hfuel)
    as (r & -> & Hnone & Hshape).
  eexists. split; [done|]. split; [done|]. split.
  - intros p [v Hp]. rewrite lookup_insert_ne; [done|]. congruence.
  - apply endswith_path_join.
    destruct Hshape as [->|[k ->]]; [done|apply endswith_numbered].
Qed.

End FilesMore.

Section FilesRuns.
Import PGNExporter PGNFile.
Import Play.

Lemma ensure_unique_filename_fresh_witness :
  exists r, ensure_unique_filename two_games 3 "game.pgn" "." = Some r
    /\ two_games !! path_join "." r = None
    /\ (two_games !! path_join "." "game.pgn" = None -> r = "game.pgn")
    /\ (is_Some (two_games !! path_join "." "game.pgn") ->
        exists k, 2 <= k /\ r = numbered (Py.drop_last 4 "game.pgn") k
          /\ forall j, 2 <= j < k ->
               is_Some (two_games !! path_join "."
                                (numbered (Py.drop_last 4 "game.pgn") j))).
Proof.
  apply (ensure_unique_filename_fresh two_games 3 "game.pgn" ".").
  vm_compute. lia.
Defined.

Lemma export_never_overwrites_witness :
  exists filepath,
    export_to_file two_games 3 Play.fresh (Some "game") "."
      = Some (filepath, <[filepath := generate_pgn_string Play.fresh]> two_games)
    /\ two_games !! filepath = None
    /\ (forall p, is_Some (two_games !! p) ->
          <[filepath := generate_pgn_string Play.fresh]> two_games !! p
            = two_games !! p)
    /\ Py.endswith filepath ".pgn" = true.
Proof.
  apply (export_never_overwrites two_games 3 Play.fresh (Some "game") ".").
  vm_compute. lia.
Defined.

Example export_picks_third_name :
  fst <$> export_to_file two_games 3 Play.fresh (Some "game") "."
    = Some "./game_3.pgn".
Proof. vm_compute. reflexivity. Qed.

End FilesRuns.

(** ** The session: undo, edit and finalize *)

Section SessionMore.
Context {Position Move : Type} {R : Rules Position Move}.
#[local] Abbreviation Board := (Board Position Move).
#[local] Abbreviation ChessGame := (ChessGame Position Move).
Implicit Types g : ChessGame.

Local Arguments recorded_sans : simpl never.
Local Arguments moves_pop : simpl never.

Lemma recorded_sans_nil g :
  recorded_sans g = [] <-> _pending_white_move g = None /\ moves g = [].
Proof.
  unfold recorded_sans. split.
  - intros [Hm Hp]%app_eq_nil. split.
    + by destruct (_pending_white_move g).
    + by destruct (moves g) as [|[w b] ms].
  - by intros [-> ->].
Qed.

Lemma undo_last_move_nothing g :
  _pending_white_move g = None -> moves g = [] ->
  undo_last_move g = (Return false, g).
Proof.
  intros Hp Hm. unfold undo_last_move, bind, gets, ret. cbn. by rewrite Hp, Hm.
Qed.

(** X15: on a session whose board is the replay of its recorded moves,
    [undo_last_move] never raises: with nothing recorded it returns
    [False] and changes nothing; otherwise it returns [True], takes
    exactly the last recorded half-move away, leaves the board the replay
    of what remains, and keeps metadata and result. *)
Theorem undo_removes_last_half_move g o g' :
  synced g -> undo_last_move g = (o, g') ->
  (recorded_sans g = [] /\ o = Return false /\ g' = g)
  \/ (exists l san, recorded_sans g = l ++ [san] /\ o = Return true
        /\ recorded_sans g' = l /\ synced g'
        /\ metadata g' = metadata g /\ result g' = result g).
Proof.
  unfold synced. intros Hsync Hu. pose proof Hu as Hu'.
  apply undo_last_move_cases in Hu
    as [(e & -> & -> & Hpop)|[(-> & -> & Hp & Hm)|(m & bd & Hpop & -> &
          [(p & Hp & ->)|[(l & w & b & Hp & Hm & ->)|(l & w & Hp & Hm & ->)]])]].
  - exfalso. destruct (recorded_sans g) as [|san l _] eqn:Hrec using rev_ind.
    + apply recorded_sans_nil in Hrec as [Hp Hm].
      by rewrite (undo_last_move_nothing _ Hp Hm) in Hu'.
    + apply play_sans_snoc in Hsync as (b0 & m & _ & Hb).
      by rewrite Hb, pop_push in Hpop.
  - left. split; [|done]. by apply recorded_sans_nil.
  - right. exists (sans_of (moves g)), p. unfold recorded_sans in *.
    rewrite Hp in *. cbn in *. rewrite app_nil_r.
    split; [done|]. split; [done|]. split; [done|].
    split; [by eapply play_sans_pop|done].
  - right. exists (sans_of l ++ [w]), b. unfold recorded_sans in *.
    rewrite Hp, Hm, sans_of_snoc in *. cbn in *. rewrite app_nil_r in Hsync.
    split; [by rewrite app_nil_r|]. split; [done|]. split; [done|].
    split; [by eapply play_sans_pop|done].
  - right. exists (sans_of l), w. unfold recorded_sans in *.
    rewrite Hp, Hm, sans_of_snoc in *. cbn in *. rewrite !app_nil_r in *.
    split; [done|]. split; [done|]. split; [done|].
    split; [by eapply play_sans_pop|done].
Qed.

(** X16: [undo_last_move] raises exactly when something is recorded
    while the stack of the board is empty; what it raises is the
    [IndexError] of [board.pop()], and the session is left as it was. *)
Theorem undo_raises_iff_stack_empty g :
  ((exists e, (undo_last_move g).1 = Raise e)
     <-> move_stack (board g) = [] /\ recorded_sans g <> [])
  /\ forall e, (undo_last_move g).1 = Raise e ->
       e = IndexError "pop from empty list" /\ (undo_last_move g).2 = g.
Proof.
  assert (Hpop : forall b : Board, pop b = None <-> move_stack b = []).
  { intros b. unfold pop. by destruct (move_stack b) as [|[p m] rest]. }
  assert (Hrec : recorded_sans g <> []
                 <-> is_Some (_pending_white_move g) \/ moves g <> []).
  { rewrite recorded_sans_nil. split.
    - intros H. destruct (_pending_white_move g) as [p|]; [left; eauto|].
      right. intros Hm. by apply H.
    - intros [[p Hp]|Hm] [Hp' Hm']; congruence. }
  rewrite Hrec, <- Hpop. clear Hrec Hpop.
  unfold undo_last_move, board_pop, bind, gets, ret, raise, set_board,
    set_pending, set_moves.
  destruct (_pending_white_move g) as [p|] eqn:Hp; cbn.
  { destruct (pop (board g)) as [[m bd]|] eqn:Hpop; cbn.
    - split; [|done]. split; [by intros [e ?]|by intros [? _]].
    - split; [|by intros e [= <-]]. split; eauto. }
  destruct (moves g) as [|[w b] l _] eqn:Hm using rev_ind; cbn.
  { split; [|done]. split; [by intros [e ?]|]. intros [_ [[? [=]]|?]]; done. }
  rewrite last_snoc.
  assert (Hne : l ++ [(w, b)] <> []) by (by destruct l).
  destruct b as [b|]; destruct (pop (board g)) as [[m bd]|] eqn:Hpop; cbn.
  - rewrite length_app, Nat.add_comm. cbn.
    rewrite insert_app_r_alt, Nat.sub_diag by lia. cbn.
    erewrite moves_pop_snoc by reflexivity. cbn.
    split; [|done]. split; [by intros [e ?]|by intros [? _]].
  - split; [|by intros e [= <-]]. split; eauto.
  - erewrite moves_pop_snoc by (cbn; exact Hm). cbn.
    split; [|done]. split; [by intros [e ?]|by intros [? _]].
  - split; [|by intros e [= <-]]. split; eauto.
Qed.

(** X17: a successful [edit_move] has a move number within the records
    and a move that passes the format check; it rewrites the one record
    with that number (the white half when the colour is [white], the
    black half for any other colour) and no other, installs the board
    that replays the new records, and keeps the number of records, the
    metadata, the result and the pending white move. *)
Theorem edit_move_changes_one_record g g' (n : Z) (color san msg : string) :
  edit_move n color san g = (Return (true, msg), g') ->
  (1 <= n <= Z.of_nat (length (moves g)))%Z
  /\ (MoveValidator.validate_move san).1 = true
  /\ msg = "Move updated successfully"
  /\ length (moves g') = length (moves g)
  /\ (forall i, i <> Z.to_nat (n - 1) -> moves g' !! i = moves g !! i)
  /\ (exists w b, moves g !! Z.to_nat (n - 1) = Some (w, b)
        /\ moves g' !! Z.to_nat (n - 1) =
             Some (if String.eqb color "white" then (san, b) else (w, Some san)))
  /\ replay new_board (moves g') = inr (board g')
  /\ metadata g' = metadata g /\ result g' = result g
  /\ _pending_white_move g' = _pending_white_move g.
Proof.
  unfold edit_move.
  destruct (MoveValidator.validate_move san) as [ok err].
  destruct ok; cbn [negb]; unfold bind, gets, ret, raise; cbn; [|done].
  destruct (_ || _)%bool eqn:Hrange; [done|].
  apply orb_false_iff in Hrange as [H1 H2].
  apply Z.ltb_ge in H1, H2.
  destruct (moves g !! Z.to_nat (n - 1)) as [[w b]|] eqn:Hlk; [|done].
  pose proof (lookup_lt_Some _ _ _ Hlk) as Hlt.
  destruct (_ && _)%bool; [done|].
  destruct (replay _ _) as [e|tb] eqn:Hrep; [done|].
  unfold set_moves, set_board; cbn. intros [= <- <-]. cbn.
  split; [lia|]. split; [done|]. split; [done|].
  split; [destruct (String.eqb color "white"); by rewrite length_insert|].
  split.
  { intros i Hi. destruct (String.eqb color "white");
      by rewrite list_lookup_insert_ne. }
  split; [|done].
  exists w, b. split; [done|].
  destruct (String.eqb color "white"); by rewrite list_lookup_insert_eq.
Qed.

Lemma all_valid_sans_of ms :
  all_valid (sans_of ms) <->
  forall w b, (w, b) ∈ ms ->
    (MoveValidator.validate_move w).1 = true
    /\ forall bs, b = Some bs -> (MoveValidator.validate_move bs).1 = true.
Proof.
  unfold all_valid, sans_of. induction ms as [|[w b] ms IH]; cbn.
  { split; [intros _ w b Hin; by apply elem_of_nil in Hin|constructor]. }
  rewrite Forall_cons, Forall_app, IH. split.
  - intros (Hw & Hb & Hms) w' b' [Heq|Hin]%elem_of_cons; [|by apply Hms].
    injection Heq as -> ->. split; [done|]. intros bs ->. by inversion Hb.
  - intros Hall. destruct (Hall w b) as [Hw Hb]; [by left|].
    split; [done|]. split.
    + destruct b as [bs|]; cbn; [|constructor].
      constructor; [|constructor]. by apply Hb.
    + intros w' b' Hin. apply Hall. by right.
Qed.

Lemma all_valid_insert ms i (r : string * option string) :
  all_valid (sans_of ms) -> all_valid (sans_of [r]) ->
  all_valid (sans_of (<[i := r]> ms)).
Proof.
  rewrite !all_valid_sans_of. intros Hms Hr w b Hin.
  apply list_elem_of_lookup in Hin as [j Hj].
  destruct (decide (j = i)) as [->|Hne].
  - destruct (decide (i < length ms)) as [Hlt|Hge].
    + rewrite list_lookup_insert_eq in Hj by done. injection Hj as ->.
      apply Hr. by left.
    + rewrite list_insert_ge in Hj by lia. apply Hms, list_elem_of_lookup; eauto.
  - rewrite list_lookup_insert_ne in Hj by done.
    apply Hms, list_elem_of_lookup; eauto.
Qed.

Lemma all_valid_step g g' op o :
  all_valid (recorded_sans g) -> run_op op g = (o, g') ->
  all_valid (recorded_sans g').
Proof.
  unfold recorded_sans, all_valid. intros Hval Hrun.
  apply Forall_app in Hval as [Hms Hp].
  destruct op as [san color| |n color san| |res]; cbn in Hrun; unfold bind in Hrun.
  - destruct (validate_and_add_move san color g) as [o1 g1] eqn:Hv.
    assert (g1 = g') as -> by (destruct o1; by injection Hrun).
    apply validate_and_add_move_cases in Hv
      as [(msg & _ & ->)|(m & Hok & _ &
            [(_ & _ & ->)|[(_ & w & Hpw & _ & ->)|(_ & Hpw & _ & ->)]])]; cbn.
    + by apply Forall_app.
    + apply Forall_app. split; [done|]. by repeat constructor.
    + rewrite app_nil_r, sans_of_snoc. rewrite Hpw in Hp. cbn in *.
      apply Forall_app. split; [by apply Forall_app|]. by repeat constructor.
    + rewrite app_nil_r. done.
  - destruct (undo_last_move g) as [o1 g1] eqn:Hu.
    assert (g1 = g') as -> by (destruct o1; by injection Hrun).
    apply undo_last_move_cases in Hu
      as [(e & _ & -> & _)|[(_ & -> & _)|(m & bd & _ & _ &
            [(p & Hpw & ->)|[(l & w & b & Hpw & Hm & ->)|(l & w & Hpw & Hm & ->)]])]];
      cbn.
    + by apply Forall_app.
    + by apply Forall_app.
    + by rewrite app_nil_r.
    + rewrite Hm, sans_of_snoc in Hms.
      apply Forall_app in Hms as [Hms _]. done.
    + rewrite Hm, sans_of_snoc in Hms.
      apply Forall_app in Hms as [[Hms _]%Forall_app _]. by rewrite app_nil_r.
  - destruct (edit_move n color san g) as [o1 g1] eqn:He.
    assert (g1 = g') as -> by (destruct o1; by injection Hrun).
    clear Hrun. revert He. unfold edit_move.
    destruct (MoveValidator.validate_move san) as [ok err] eqn:Hv.
    destruct ok; cbn [negb]; unfold bind, gets, ret, raise; cbn;
      [|intros [= _ <-]; by apply Forall_app].
    destruct (_ || _)%bool; [intros [= _ <-]; by apply Forall_app|].
    destruct (moves g !! Z.to_nat (n - 1)) as [[w b]|] eqn:Hlk;
      [|intros [= _ <-]; by apply Forall_app].
    destruct (_ && _)%bool eqn:Hblack; [intros [= _ <-]; by apply Forall_app|].
    destruct (replay _ _) as [e|tb] eqn:Hrep; [intros [= _ <-]; by apply Forall_app|].
    unfold set_moves, set_board; cbn. intros [= _ <-]. cbn.
    apply Forall_app. split; [|done].
    assert (Hwb : (MoveValidator.validate_move w).1 = true
              /\ forall bs, b = Some bs -> (MoveValidator.validate_move bs).1 = true).
    { apply (proj1 (all_valid_sans_of (moves g)) Hms w b), list_elem_of_lookup; eauto. }
    destruct Hwb as [Hw Hb].
    assert (Hsan : (MoveValidator.validate_move san).1 = true) by (by rewrite Hv).
    destruct (String.eqb color "white"); apply all_valid_insert; try done;
      apply all_valid_sans_of; intros w' b' [= -> ->]%list_elem_of_singleton; split;
      try done. by intros bs [= <-].
  - rewrite finalize_pending_move_cases in Hrun. cbn in Hrun.
    injection Hrun as _ <-.
    destruct (_pending_white_move g) as [w|] eqn:Hpw; cbn.
    + rewrite sans_of_snoc. cbn. by rewrite !app_nil_r; apply Forall_app.
    + rewrite Hpw. by apply Forall_app.
  - rewrite set_result_cases in Hrun.
    destruct (existsb _ _); cbn in Hrun; injection Hrun as _ <-; by apply Forall_app.
Qed.

Lemma reachable_all_valid g : reachable g -> all_valid (recorded_sans g).
Proof.
  induction 1 as [md|g g' op o _ IH Hrun]; [constructor|].
  by eapply all_valid_step.
Qed.

(** X18: whatever calls led to a session, every move in its records,
    white half, black half or pending, is one that [validate_move]
    accepts; in particular none is empty. *)
Theorem recorded_moves_pass_validation g :
  reachable g ->
  (forall w b, (w, b) ∈ moves g ->
     (MoveValidator.validate_move w).1 = true
     /\ forall bs, b = Some bs -> (MoveValidator.validate_move bs).1 = true)
  /\ (forall p, _pending_white_move g = Some p ->
        (MoveValidator.validate_move p).1 = true)
  /\ forall san, san ∈ recorded_sans g -> san <> "".
Proof.
  intros Hval%reachable_all_valid. pose proof Hval as Hall.
  unfold recorded_sans in Hval. apply Forall_app in Hval as [Hms Hp].
  split; [by apply all_valid_sans_of|]. split.
  - intros p Hpw. rewrite Hpw in Hp. by inversion Hp.
  - intros san Hin. apply validate_move_accepts_nonempty.
    unfold all_valid in Hall. rewrite Forall_forall in Hall. by apply Hall.
Qed.

(** X19: on a reachable session with no pending white move whose board
    is the replay of its records, editing a half-move to the move it
    already is succeeds and changes nothing. *)
Theorem edit_to_same_move_changes_nothing g (n : Z) (w : string) (b : option string) :
  reachable g -> synced g -> _pending_white_move g = None ->
  (1 <= n)%Z -> moves g !! Z.to_nat (n - 1) = Some (w, b) ->
  edit_move n "white" w g = (Return (true, "Move updated successfully"), g)
  /\ forall bs, b = Some bs ->
       edit_move n "black" bs g = (Return (true, "Move updated successfully"), g).
Proof.
  intros Hreach Hsync Hp Hn Hlk.
  pose proof (reachable_all_valid _ Hreach) as Hval.
  pose proof (reachable_stack_covers _ Hreach) as [_ Hne].
  unfold recorded_sans in Hval. apply Forall_app in Hval as [Hms _].
  destruct (proj1 (all_valid_sans_of _) Hms w b) as [Hw Hb].
  { apply list_elem_of_lookup; eauto. }
  assert (Hrep : replay new_board (moves g) = inr (board g)).
  { rewrite replay_play_sans by done. unfold synced, recorded_sans in Hsync.
    by rewrite Hp, app_nil_r in Hsync. }
  pose proof (lookup_lt_Some _ _ _ Hlk) as Hlt.
  assert (Hrange : ((n <? 1) || (Z.of_nat (length (moves g)) <? n))%Z = false).
  { apply orb_false_iff. split; apply Z.ltb_ge; lia. }
  split.
  - unfold edit_move. destruct (MoveValidator.validate_move w) as [ok err].
    cbn in Hw. subst ok. cbn [negb]. unfold bind, gets, ret. cbn.
    rewrite Hrange, Hlk. cbn. rewrite list_insert_id by done. rewrite Hrep.
    unfold set_moves, set_board. cbn. by destruct g.
  - intros bs ->. specialize (Hb bs eq_refl).
    unfold edit_move. destruct (MoveValidator.validate_move bs) as [ok err].
    cbn in Hb. subst ok. cbn [negb]. unfold bind, gets, ret. cbn.
    rewrite Hrange, Hlk. cbn. rewrite list_insert_id by done. rewrite Hrep.
    unfold set_moves, set_board. cbn. by destruct g.
Qed.

(** X20: [finalize_pending_move] returns without raising; it moves the
    pending white move, if any, into a record of its own, so the recorded
    half-moves, the board, the metadata and the result stay as they are
    and nothing is pending afterwards; a second call changes nothing. *)
Theorem finalize_pending_move_commits g :
  (finalize_pending_move g).1 = Return tt
  /\ recorded_sans (finalize_pending_move g).2 = recorded_sans g
  /\ board (finalize_pending_move g).2 = board g
  /\ metadata (finalize_pending_move g).2 = metadata g
  /\ result (finalize_pending_move g).2 = result g
  /\ _pending_white_move (finalize_pending_move g).2 = None
  /\ (forall w, _pending_white_move g = Some w ->
        moves (finalize_pending_move g).2 = moves g ++ [(w, None)])
  /\ finalize_pending_move (finalize_pending_move g).2
       = (Return tt, (finalize_pending_move g).2).
Proof.
  rewrite !finalize_pending_move_cases. cbn.
  destruct (_pending_white_move g) as [w|] eqn:Hp; cbn.
  - unfold recorded_sans. cbn. rewrite Hp, sans_of_snoc. cbn.
    rewrite !app_nil_r. repeat split; try done. by intros w' [= <-].
  - rewrite ?Hp. by repeat split.
Qed.

(** X26: [get_move_count] counts the records, complete or not: on an
    orderly session with [n] records, the records hold [2n] half-moves,
    or [2n - 1] when the last record lacks its black half, which cannot
    be while a white move is pending. *)
Theorem move_count_counts_records g :
  orderly g ->
  get_move_count g = (Return (length (moves g)), g)
  /\ 2 * length (moves g) - 1 <= plies (moves g) <= 2 * length (moves g)
  /\ (plies (moves g) = 2 * length (moves g) <-> all_complete (moves g))
  /\ (is_Some (_pending_white_move g) -> all_complete (moves g)).
Proof.
  intros (_ & _ & Hpair). split; [done|]. unfold plies.
  assert (Hcases : all_complete (moves g)
            \/ exists l w, moves g = l ++ [(w, None)] /\ all_complete l).
  { destruct (_pending_white_move g); [by left|].
    by apply only_last_incomplete_inv. }
  destruct Hcases as [Hall|(l & w & Hm & Hall)].
  - rewrite (all_complete_sans _ Hall). split; [lia|]. split; [done|done].
  - assert (Hnot : ~ all_complete (moves g)).
    { rewrite Hm. intros [_ Hlast]%Forall_app.
      apply Forall_cons in Hlast as [[b Hb] _]. done. }
    assert (Hlen : length (sans_of (moves g)) = 2 * length (moves g) - 1
                   /\ 1 <= length (moves g)).
    { rewrite Hm, sans_of_snoc, !length_app, (all_complete_sans _ Hall). cbn. lia. }
    destruct Hlen as [-> Hpos].
    split; [lia|]. split; [split; [lia|done]|].
    intros Hp. destruct (_pending_white_move g); [done|]. by destruct Hp.
Qed.

End SessionMore.

(** ** The session on an engine whose turns alternate *)

Section DisciplineMore.
Context {Position Move : Type} {R : Rules Position Move}.
#[local] Abbreviation Board := (Board Position Move).
#[local] Abbreviation ChessGame := (ChessGame Position Move).
Implicit Types g : ChessGame.

Hypothesis white_starts : turn (starting : Position) = WHITE.
Hypothesis turn_alternates :
  forall (p : Position) (m : Move), turn (play p m) = negb (turn p).

Local Arguments recorded_sans : simpl never.


(** X21: on an orderly session, a move that [validate_and_add_move]
    accepts is of the colour whose turn it is, becomes the last recorded
    half-move, passes the turn to the other side and leaves the session
    orderly; the message is empty. *)
Theorem accepted_move_is_appended g g' (san color msg : string) :
  orderly g ->
  validate_and_add_move san color g = (Return (true, msg), g') ->
  msg = ""
  /\ turn (position (board g)) = String.eqb color "white"
  /\ recorded_sans g' = recorded_sans g ++ [san]
  /\ turn (position (board g')) = negb (turn (position (board g)))
  /\ orderly g'.
Proof.
  intros Hord Hv.
  pose proof (validate_and_add_move_turn _ _ _ _ _ Hv) as Hturn.
  assert (Hord' : orderly g').
  { apply (orderly_step white_starts turn_alternates g g' (Propose san color)
             (Return (VTuple (true, msg)))); try done.
    cbn. unfold bind. by rewrite Hv. }
  apply validate_and_add_move_cases in Hv
    as [(msg' & [=] & _)|(m & _ & _ &
          [(-> & [= ->] & ->)|[(_ & w & Hp & [= ->] & ->)|(_ & _ & [=] & _)]])].
  - destruct (white_to_move_all_paired white_starts turn_alternates g Hord Hturn)
      as [Hp _].
    unfold recorded_sans. cbn. rewrite Hp. cbn. rewrite app_nil_r.
    by rewrite turn_alternates.
  - unfold recorded_sans. cbn. rewrite Hp, sans_of_snoc. cbn.
    rewrite app_nil_r. by rewrite turn_alternates.
Qed.


End DisciplineMore.

(** ** What is shown and what is exported *)

Section DisplayMore.
Import PGNExporter PGNFile.
Context {Position Move : Type} {R : Rules Position Move}.
#[local] Abbreviation ChessGame := (ChessGame Position Move).
Implicit Types g : ChessGame.






Lemma drop_empty_black_id (ms : list (string * option string)) :
  (forall w b, (w, Some b) ∈ ms -> b <> "") -> map drop_empty_black ms = ms.
Proof.
  induction ms as [|[w b] ms IH]; intros Hne; [done|]. cbn.
  rewrite IH by (intros w' b' Hin; apply (Hne w'); by right). f_equal.
  destruct b as [[|c b]|]; try done. exfalso. apply (Hne w ""); [left|done].
Qed.

(** X24: on every session that the calls can reach, [format_moves]
    renders the records exactly as the exporter contract words it,
    because no call records an empty black half. *)
Theorem reachable_export_follows_contract g :
  reachable g ->
  format_moves (moves g) (result g) = contract_text (moves g) (result g)
  /\ forall w, (w, Some "") ∉ moves g.
Proof.
  intros [_ Hne]%reachable_stack_covers. split.
  - unfold format_moves, contract_text.
    destruct (moves g) as [|r ms] eqn:Hm; [done|].
    by rewrite append_lines_contract, drop_empty_black_id.
  - intros w Hin. by apply (Hne w "").
Qed.

End DisplayMore.

(** ** The further session properties at work on the engine *)

Section SessionRuns.
Import PGNExporter PGNFile Play.

Ltac run := vm_compute; reflexivity.

Lemma undo_removes_last_half_move_witness :
  let g := after [Propose "e4" "white"; Propose "e5" "black"] in
  (recorded_sans g = [] /\ (undo_last_move g).1 = Return false
     /\ (undo_last_move g).2 = g)
  \/ (exists l san, recorded_sans g = l ++ [san]
        /\ (undo_last_move g).1 = Return true
        /\ recorded_sans (undo_last_move g).2 = l /\ synced (undo_last_move g).2
        /\ metadata (undo_last_move g).2 = metadata g
        /\ result (undo_last_move g).2 = result g).
Proof.
  cbv zeta.
  apply (undo_removes_last_half_move
           (after [Propose "e4" "white"; Propose "e5" "black"])).
  - run.
  - apply surjective_pairing.
Defined.

Lemma edit_move_changes_one_record_witness :
  let g := after [Propose "e4" "white"; Propose "e5" "black"] in
  let g' := (edit_move 1 "white" "d4" g).2 in
  (1 <= 1 <= Z.of_nat (length (moves g)))%Z
  /\ (MoveValidator.validate_move "d4").1 = true
  /\ "Move updated successfully" = "Move updated successfully"
  /\ length (moves g') = length (moves g)
  /\ (forall i, i <> Z.to_nat (1 - 1) -> moves g' !! i = moves g !! i)
  /\ (exists w b, moves g !! Z.to_nat (1 - 1) = Some (w, b)
        /\ moves g' !! Z.to_nat (1 - 1) =
             Some (if String.eqb "white" "white" then ("d4", b) else (w, Some "d4")))
  /\ replay new_board (moves g') = inr (board g')
  /\ metadata g' = metadata g /\ result g' = result g
  /\ _pending_white_move g' = _pending_white_move g.
Proof.
  cbv zeta.
  apply (edit_move_changes_one_record
           (after [Propose "e4" "white"; Propose "e5" "black"]) _ 1 "white" "d4").
  run.
Defined.

Lemma recorded_moves_pass_validation_witness :
  let g := after [Propose "e4" "white"; Propose "e5" "black"; Propose "Nf3" "white"] in
  (forall w b, (w, b) ∈ moves g ->
     (MoveValidator.validate_move w).1 = true
     /\ forall bs, b = Some bs -> (MoveValidator.validate_move bs).1 = true)
  /\ (forall p, _pending_white_move g = Some p ->
        (MoveValidator.validate_move p).1 = true)
  /\ forall san, san ∈ recorded_sans g -> san <> "".
Proof.
  cbv zeta. apply recorded_moves_pass_validation, reachable_after.
Defined.

Lemma edit_to_same_move_changes_nothing_witness :
  let g := after [Propose "e4" "white"; Propose "e5" "black"] in
  edit_move 1 "white" "e4" g = (Return (true, "Move updated successfully"), g)
  /\ forall bs, Some "e5" = Some bs ->
       edit_move 1 "black" bs g = (Return (true, "Move updated successfully"), g).
Proof.
  cbv zeta.
  apply (edit_to_same_move_changes_nothing
           (after [Propose "e4" "white"; Propose "e5" "black"]) 1 "e4" (Some "e5")).
  - apply reachable_after.
  - run.
  - run.
  - lia.
  - run.
Defined.

Lemma accepted_move_is_appended_witness :
  let g := fresh in
  let g' := (validate_and_add_move "e4" "white" g).2 in
  "" = ""
  /\ turn (position (board g)) = String.eqb "white" "white"
  /\ recorded_sans g' = recorded_sans g ++ ["e4"]
  /\ turn (position (board g')) = negb (turn (position (board g)))
  /\ orderly g'.
Proof.
  cbv zeta.
  apply (accepted_move_is_appended engine_white_starts engine_turn_alternates
           fresh _ "e4" "white" "").
  - apply orderly_init.
  - run.
Defined.


Lemma reachable_export_follows_contract_witness :
  let g := after [Propose "e4" "white"; Propose "e5" "black";
                  Propose "Nf3" "white"; Finalize] in
  format_moves (moves g) (result g) = contract_text (moves g) (result g)
  /\ forall w, (w, Some "") ∉ moves g.
Proof.
  cbv zeta. apply reachable_export_follows_contract, reachable_after.
Defined.

Lemma move_count_counts_records_witness :
  let g := after [Propose "e4" "white"; Propose "e5" "black";
                  Propose "Nf3" "white"; Finalize] in
  get_move_count g = (Return (length (moves g)), g)
  /\ 2 * length (moves g) - 1 <= plies (moves g) <= 2 * length (moves g)
  /\ (plies (moves g) = 2 * length (moves g) <-> all_complete (moves g))
  /\ (is_Some (_pending_white_move g) -> all_complete (moves g)).
Proof.
  cbv zeta. apply move_count_counts_records.
  apply (orderly_run_ops engine_white_starts engine_turn_alternates
           [Propose "e4" "white"; Propose "e5" "black";
            Propose "Nf3" "white"; Finalize] fresh).
  - apply orderly_init.
  - vm_compute. tauto.
Defined.

End SessionRuns.

(** ** The prompts of the application *)

Section AppMore.
Import PGNExporter App.
Context {Position Move : Type} {R : Rules Position Move}.
#[local] Abbreviation ChessGame := (ChessGame Position Move).
Implicit Types g : ChessGame.

Lemma ask_cases (default : string) (lines : list string) :
  ask default lines =
    match lines with
    | [] => None
    | line :: rest =>
        Some (match Py.strip line with "" => default | x => x end, rest)
    end.
Proof. by destruct lines. Qed.

Lemma ask_nonempty (default : string) (lines rest : list string) (x : string) :
  default <> "" -> ask default lines = Some (x, rest) ->
  x <> "" /\ lines <> [] /\ rest = tail lines.
Proof.
  intros Hd. rewrite ask_cases. destruct lines as [|line lines]; [done|].
  intros [= <- <-]. split; [|done]. by destruct (Py.strip line).
Qed.

(** X27: when [collect_metadata] returns, it has read six lines and the
    metadata has a non-empty value for each of the seven required
    headers, so [format_headers] never falls back on the question mark;
    the Result entry is the asterisk, and so is the result of the session
    built on the metadata.  It returns whenever six lines can be read. *)
Theorem collect_metadata_fills_headers (today : date) (lines rest : list string)
    (md : gmap string string) :
  collect_metadata today lines = Some (md, rest) ->
  (forall h, h ∈ REQUIRED_HEADERS -> exists v, md !! h = Some v /\ v <> "")
  /\ md !! "Result" = Some "*"
  /\ result (__init__ md : ChessGame) = "*"
  /\ 6 <= length lines /\ rest = drop 6 lines.
Proof.
  unfold collect_metadata, bind.
  destruct (ask "Casual Game" lines) as [[event l1]|] eqn:H1; [|done].
  destruct (ask "Local" l1) as [[site l2]|] eqn:H2; [|done].
  destruct (ask _ l2) as [[date_str l3]|] eqn:H3; [|done].
  destruct (ask "1" l3) as [[round_num l4]|] eqn:H4; [|done].
  destruct (ask "Player 1" l4) as [[white l5]|] eqn:H5; [|done].
  destruct (ask "Player 2" l5) as [[black l6]|] eqn:H6; [|done].
  apply ask_nonempty in H1 as (He & Hl0 & ->); [|done].
  apply ask_nonempty in H2 as (Hs & Hl1 & ->); [|done].
  apply ask_nonempty in H3 as (Hd & Hl2 & ->);
    [|rewrite <- append_assoc; apply append_nonempty; by destruct (pretty (year today))].
  apply ask_nonempty in H4 as (Hr & Hl3 & ->); [|done].
  apply ask_nonempty in H5 as (Hw & Hl4 & ->); [|done].
  apply ask_nonempty in H6 as (Hb & Hl5 & ->); [|done].
  intros [= <- <-]. split; [|split; [done|split; [done|]]].
  - intros h Hh. unfold REQUIRED_HEADERS in Hh.
    repeat (apply elem_of_cons in Hh as [->|Hh]; [eexists; split; [reflexivity|done]|]).
    by apply elem_of_nil in Hh.
  - destruct lines as [|? [|? [|? [|? [|? [|? ?]]]]]]; try done.
    split; [cbn; lia|done].
Qed.

(** X28: the result that [get_result] returns is one of the four that
    [set_result] takes, so the [set_result] call that follows it never
    raises; it is the first typed line that is one of them once stripped,
    and the lines before it are used up.  [get_result] runs out of input
    exactly when no line qualifies. *)
Theorem get_result_is_accepted_by_set_result (lines : list string) :
  (forall r rest, get_result lines = Some (r, rest) ->
     r ∈ valid_results
     /\ (forall g, (set_result r g).1 = Return tt
                   /\ result (set_result r g).2 = r
                   /\ metadata (set_result r g).2 !! "Result" = Some r)
     /\ exists skipped line, lines = skipped ++ line :: rest
          /\ r = Py.strip line
          /\ Forall (fun l => Py.strip l ∉ valid_results) skipped)
  /\ (get_result lines = None
      <-> Forall (fun l => Py.strip l ∉ valid_results) lines).
Proof.
  assert (Hmem : forall x, existsb (String.eqb x) ["1-0"; "0-1"; "1/2-1/2"; "*"] = true
                           <-> x ∈ valid_results).
  { intros x. rewrite existsb_exists. unfold valid_results. split.
    - intros (y & Hin & ->%String.eqb_eq). by apply list_elem_of_In.
    - intros Hin%list_elem_of_In. exists x. split; [done|apply String.eqb_refl]. }
  induction lines as [|line lines [IHsome IHnone]]; cbn [get_result].
  { split; [done|]. split; [constructor|done]. }
  destruct (existsb _ _) eqn:Hex.
  - apply Hmem in Hex. split.
    + intros r rest [= <- <-]. split; [done|]. split.
      * intros g. pose proof (proj2 (Hmem _) Hex) as Hb.
        rewrite set_result_cases. unfold valid_results. rewrite Hb. cbn.
        by rewrite lookup_insert_eq.
      * exists [], line. by repeat split.
    + split; [done|]. intros Hall. apply Forall_cons in Hall as [Hno _]. done.
  - assert (Hno : Py.strip line ∉ valid_results).
    { intros Hin%Hmem. congruence. }
    split.
    + intros r rest (Hin & Hset & skipped & l & -> & -> & Hsk)%IHsome.
      split; [done|]. split; [done|].
      exists (line :: skipped), l. split; [done|]. split; [done|]. by constructor.
    + rewrite IHnone, Forall_cons. tauto.
Qed.

End AppMore.

Section AppRuns.
Import PGNExporter App Play.

Lemma collect_metadata_fills_headers_witness :
  let typed := ["Club night"; ""; ""; " 3 "; "Ann Lee"; ""; "e4"] in
  let md := default ∅ (fst <$> collect_metadata (mkDate 2025 1 5) typed) in
  (forall h, h ∈ REQUIRED_HEADERS -> exists v, md !! h = Some v /\ v <> "")
  /\ md !! "Result" = Some "*"
  /\ result (__init__ md : ChessGame Engine.Position Engine.Move) = "*"
  /\ 6 <= length typed /\ ["e4"] = drop 6 typed.
Proof.
  cbv zeta.
  apply (collect_metadata_fills_headers (mkDate 2025 1 5)
           ["Club night"; ""; ""; " 3 "; "Ann Lee"; ""; "e4"] ["e4"]).
  vm_compute. reflexivity.
Defined.

Example collect_metadata_defaults :
  fst <$> collect_metadata (mkDate 2025 1 5) ["Club night"; ""; ""; " 3 "; "Ann Lee"; ""]
  = Some (<["Event" := "Club night"]> (<["Site" := "Local"]>
         (<["Date" := "2025.01.05"]> (<["Round" := "3"]> (<["White" := "Ann Lee"]>
         (<["Black" := "Player 2"]> (<["Result" := "*"]> ∅))))))).
Proof. vm_compute. reflexivity. Qed.

End AppRuns.
